(** * l2cs: Lucene-style queries to Cloudsearch s-expressions

    A shallow embedding of [l2cs.py].  The module keeps one global
    dictionary, [HANDLERS], from the class of a whoosh query object to the
    generator that renders it; [walk_clause] looks the class of a clause up
    in that dictionary and re-yields what the handler yields.  Generators
    are modelled by their full run: the dictionary they leave behind, the
    pieces they yielded, and whether they finished or raised.  The handlers
    are given twice: on clauses as values, and on references into a store
    of objects, where what a rendering leaves of the tree can be stated. *)

From stdpp Require Import gmap strings list.
From Stdlib Require Import ZArith Ascii String DecimalString DecimalZ DecimalPos.

Set Warnings "-register-all".

(** ** Python classes *)

(** A class is its name and its base ([class name(base): ...]); whoosh's
    query classes all use single inheritance down to [object]. *)
Inductive pyclass : Type :=
| object
| subclass (name : string) (base : pyclass).

Fixpoint mro_names (c : pyclass) : list string :=
  match c with
  | object => []
  | subclass name base => name :: mro_names base
  end.

Fixpoint class_of_names (l : list string) : pyclass :=
  match l with
  | [] => object
  | name :: l' => subclass name (class_of_names l')
  end.

Lemma class_of_mro_names c : class_of_names (mro_names c) = c.
Proof. induction c as [|name base IH]; simpl; [done | by rewrite IH]. Qed.

#[global] Instance pyclass_eq_dec : EqDecision pyclass.
Proof. solve_decision. Defined.

#[global] Instance pyclass_countable : Countable pyclass :=
  inj_countable' mro_names class_of_names class_of_mro_names.

(** [cls.__name__] *)
Definition __name__ (c : pyclass) : string :=
  match c with
  | object => "object"
  | subclass name _ => name
  end.

(** [issubclass(c, d)]: [d] is [c] or one of its ancestors. *)
Fixpoint issubclass (c d : pyclass) : bool :=
  if decide (c = d) then true
  else match c with
       | object => false
       | subclass _ base => issubclass base d
       end.

(** The classes of [whoosh.query] that the program names or that its parser
    configuration can produce. *)
Module whoosh_query.
Definition Query : pyclass := subclass "Query" object.
Definition Term : pyclass := subclass "Term" Query.
Definition Phrase : pyclass := subclass "Phrase" Query.
Definition CompoundQuery : pyclass := subclass "CompoundQuery" Query.
Definition And : pyclass := subclass "And" CompoundQuery.
Definition Or : pyclass := subclass "Or" CompoundQuery.
Definition Not : pyclass := subclass "Not" Query.
Definition BinaryQuery : pyclass := subclass "BinaryQuery" CompoundQuery.
Definition AndNot : pyclass := subclass "AndNot" BinaryQuery.
(** Produced by [PrefixPlugin] and [EveryPlugin]; the module's own note
    lists [Prefix] under "Need handlers for". *)
Definition Prefix : pyclass := subclass "Prefix" Query.
Definition Every : pyclass := subclass "Every" Query.
End whoosh_query.
Import whoosh_query.

(** ** Query objects

    A clause as the handlers observe it: its runtime class, the attributes
    they read ([fieldname], [text], [words], the optional [integer_field]
    that [IntNode.query] sets) and what [children()] yields.  An attribute
    the object does not have is [None]; reading it raises
    [AttributeError]. *)
Inductive clause : Type :=
  Clause {
    __class__ : pyclass;
    fieldname : option string;
    text : option string;
    words : option (list string);
    integer_field : option bool;
    children : list clause
  }.

(** The constructors of whoosh's query classes. *)
Definition new_Term (fieldname text : string) : clause :=
  Clause Term (Some fieldname) (Some text) None None [].
Definition new_Phrase (fieldname : string) (words : list string) : clause :=
  Clause Phrase (Some fieldname) None (Some words) None [].
Definition new_And (subqueries : list clause) : clause :=
  Clause And None None None None subqueries.
Definition new_Or (subqueries : list clause) : clause :=
  Clause Or None None None None subqueries.
Definition new_Not (query : clause) : clause :=
  Clause Not None None None None [query].
Definition new_AndNot (a b : clause) : clause :=
  Clause AndNot None None None None [a; b].
Definition new_Prefix (fieldname text : string) : clause :=
  Clause Prefix (Some fieldname) (Some text) None None [].

(** [q.integer_field = v] *)
Definition set_integer_field (v : bool) (q : clause) : clause :=
  Clause (__class__ q) (fieldname q) (text q) (words q) (Some v) (children q).

(** ** Exceptions and generator runs *)

Inductive exn : Type :=
| KeyError (key : pyclass)
| ValueError (msg : string)
| AttributeError (name : string)
| IndexError
| AssertionError.

Inductive outcome (A : Type) : Type :=
| Return (a : A)
| Raise (e : exn).
Arguments Return {A} a.
Arguments Raise {A} e.

(** The three generator functions that are stored in [HANDLERS]. *)
Inductive handler_fn : Type :=
| fn_build_field
| fn_build_grouper
| fn_build_compound.

#[global] Instance handler_fn_eq_dec : EqDecision handler_fn.
Proof. solve_decision. Defined.

(** What running a piece of code to its end leaves: the global dictionary,
    the strings yielded on the way (in order), and the outcome. *)
Record run (A : Type) : Type :=
  Run {
    globals : gmap pyclass handler_fn;
    pieces : list string;
    result : outcome A
  }.
Arguments Run {A} globals pieces result.
Arguments globals {A} r.
Arguments pieces {A} r.
Arguments result {A} r.

Definition gen (A : Type) : Type := gmap pyclass handler_fn → run A.

Definition gen_ret {A} (a : A) : gen A := λ H, Run H [] (Return a).

Definition gen_bind {A B} (k : A → gen B) (m : gen A) : gen B :=
  λ H,
    let r := m H in
    match result r with
    | Return a =>
        let r' := k a (globals r) in
        Run (globals r') (pieces r ++ pieces r') (result r')
    | Raise e => Run (globals r) (pieces r) (Raise e)
    end.

#[global] Instance gen_mret : MRet gen := @gen_ret.
#[global] Instance gen_mbind : MBind gen := @gen_bind.

Definition raise {A} (e : exn) : gen A := λ H, Run H [] (Raise e).
Definition yield (piece : string) : gen unit := λ H, Run H [piece] (Return tt).

(** [cls in HANDLERS], [HANDLERS[cls]] and [HANDLERS[cls] = fn]. *)
Definition HANDLERS_contains (cls : pyclass) : gen bool :=
  λ H, Run H [] (Return (bool_decide (is_Some (H !! cls)))).
Definition HANDLERS_getitem (cls : pyclass) : gen handler_fn :=
  λ H, match H !! cls with
       | Some fn => Run H [] (Return fn)
       | None => Run H [] (Raise (KeyError cls))
       end.
Definition HANDLERS_setitem (cls : pyclass) (fn : handler_fn) : gen unit :=
  λ H, Run (<[cls := fn]> H) [] (Return tt).

(** [for x in xs: body(x)] *)
Definition for_in {A} (xs : list A) (body : A → gen unit) : gen unit :=
  (fix loop (xs : list A) : gen unit :=
     match xs with
     | [] => mret tt
     | x :: xs' => body x ;; loop xs'
     end) xs.

(** Reading an attribute that may be missing. *)
Definition getattr {A} (name : string) (v : option A) : gen A :=
  match v with
  | Some a => mret a
  | None => raise (AttributeError name)
  end.

(** [s.lower()] on ASCII text. *)
Definition lower_ascii (c : ascii) : ascii :=
  let n := nat_of_ascii c in
  if (65 <=? n)%nat && (n <=? 90)%nat then ascii_of_nat (n + 32) else c.

Fixpoint lower (s : string) : string :=
  match s with
  | EmptyString => EmptyString
  | String c s' => String (lower_ascii c) (lower s')
  end.

(** ** The handlers *)

(** [build_field], registered for [Term] and [Phrase]. *)
Definition build_field (clause : clause) : gen unit :=
  let integer_field := default false (integer_field clause) in
  if negb integer_field then
    yield "(field " ;;
    fieldname ← getattr "fieldname" (fieldname clause);
    yield fieldname ;;
    yield " '" ;;
    (if issubclass (__class__ clause) Term then
       text ← getattr "text" (text clause);
       yield text
     else if issubclass (__class__ clause) Phrase then
       words ← getattr "words" (words clause);
       for_in (removelast words) (λ word, yield word ;; yield " ") ;;
       match last words with
       | Some word => yield word
       | None => raise IndexError
       end
     else mret tt) ;;
    yield "')"
  else
    fieldname ← getattr "fieldname" (fieldname clause);
    yield fieldname ;;
    yield ":" ;;
    text ← getattr "text" (text clause);
    yield text.

(** [build_grouper], registered for [And], [Or] and [Not]. *)
Definition build_grouper (walk_clause : clause → gen unit) (clause : clause)
  : gen unit :=
  yield "(" ;;
  yield (lower (__name__ (__class__ clause))) ;;
  for_in (children clause) (λ child_clause,
    yield " " ;;
    walk_clause child_clause) ;;
  yield ")".

(** [build_compound], registered for [AndNot]. *)
Definition build_compound (walk_clause : clause → gen unit) (clause : clause)
  : gen unit :=
  yield "(and " ;;
  match children clause with
  | [use; avoid] =>
      walk_clause use ;;
      yield " (not " ;;
      walk_clause avoid ;;
      yield "))"
  | [] => raise (ValueError "need more than 0 values to unpack")
  | [_] => raise (ValueError "need more than 1 value to unpack")
  | _ => raise (ValueError "too many values to unpack")
  end.

(** [walk_clause]: look the handler up by the exact class of the clause and
    re-yield its pieces. *)
Fixpoint walk_clause (clause : clause) : gen unit :=
  handler_fn ← HANDLERS_getitem (__class__ clause);
  match handler_fn with
  | fn_build_field => build_field clause
  | fn_build_grouper => build_grouper walk_clause clause
  | fn_build_compound => build_compound walk_clause clause
  end.

(** [''.join(pieces)]: runs the generator to its end; an exception raised on
    the way propagates and the pieces yielded before it are lost. *)
Definition join (pieces_gen : gen unit) : gen string :=
  λ H,
    let r := pieces_gen H in
    match result r with
    | Return _ => Run (globals r) [] (Return (String.concat EmptyString (pieces r)))
    | Raise e => Run (globals r) [] (Raise e)
    end.

(** The rendering half of [convert] (and of [main]):
    [''.join(walk_clause(parsed))]. *)
Definition render (parsed : clause) : gen string := join (walk_clause parsed).

(** ** Registration *)

(** [handler(classes)(fn)]; the message is the literal of the source, which
    is never formatted. *)
Definition handler (classes : list pyclass) (fn : handler_fn) : gen handler_fn :=
  for_in classes (λ cls,
    taken ← HANDLERS_contains cls;
    if (taken : bool) then raise (ValueError "%s already has a handler")
    else HANDLERS_setitem cls fn) ;;
  mret fn.

(** The body of the module up to [walk_clause]: [HANDLERS = {}] and the
    three decorated definitions, in source order. *)
Definition l2cs_module : gen unit :=
  (λ _, Run ∅ [] (Return tt)) ;;
  handler [Term; Phrase] fn_build_field ;;
  handler [And; Or; Not] fn_build_grouper ;;
  handler [AndNot] fn_build_compound ;;
  mret tt.

(** The dictionary once the module is imported. *)
Definition HANDLERS : gmap pyclass handler_fn := globals (l2cs_module ∅).

(** ** The parser side: syntax nodes and the two plugins *)

#[global] Instance outcome_mret : MRet outcome := @Return.
#[global] Instance outcome_mbind : MBind outcome :=
  λ A B k m, match m with Return a => k a | Raise e => Raise e end.

(** What [IntNode(...)] is called with: the text of a word node, or one of
    the literals [0] and [1]. *)
Inductive pyvalue : Type :=
| PyStr (s : string)
| PyInt (n : Z).

(** The nodes of [whoosh.qparser.syntax] that the plugins see: a word, the
    [IntNode] subclass of the module (which keeps the parsed integer), and
    structural nodes, which have no text. *)
Inductive SyntaxNode : Type :=
| WordNode (text : string) (fieldname : option string)
| IntNode (int_value : Z) (text : string) (fieldname : option string)
| GroupNode (nodes : list SyntaxNode).

(** [node.has_text] *)
Definition has_text (node : SyntaxNode) : bool :=
  match node with
  | WordNode _ _ | IntNode _ _ _ => true
  | GroupNode _ => false
  end.

(** [node.text], read only where [has_text] holds. *)
Definition node_text (node : SyntaxNode) : string :=
  match node with
  | WordNode text _ | IntNode _ text _ => text
  | GroupNode _ => EmptyString
  end.

Definition node_fieldname (node : SyntaxNode) : option string :=
  match node with
  | WordNode _ fieldname | IntNode _ _ fieldname => fieldname
  | GroupNode _ => None
  end.

(** whoosh's [set_fieldname(name)] on a text node, with its default
    [override=False]: the name is taken only when none is set yet. *)
Definition set_fieldname (name : string) (node : SyntaxNode) : SyntaxNode :=
  match node with
  | WordNode text None => WordNode text (Some name)
  | IntNode n text None => IntNode n text (Some name)
  | _ => node
  end.

(** [str(n)] for an integer: its decimal digits, with a minus sign when
    negative. *)
Definition py_str (n : Z) : string := NilZero.string_of_int (Z.to_int n).

(** A plain reading of decimal literals (optional minus sign, digits),
    enough to run the definitions below on examples. *)
Definition decimal_literal (s : string) : option Z :=
  Z.of_int <$> NilZero.int_of_string s.

(** [try: body except ValueError: handler] *)
Definition try_except_ValueError {A} (body handler : outcome A) : outcome A :=
  match body with
  | Raise (ValueError _) => handler
  | _ => body
  end.

(** whoosh's [WordNode.query(parser)] for a parser without schema, as
    [make_parser] builds it by default: the term class applied to the
    node's field name, or the parser's when the node has none, and to the
    text. *)
Definition WordNode_query (parser_fieldname : string) (node : SyntaxNode) : clause :=
  let fieldname := match node_fieldname node with
                   | Some name => if decide (name = EmptyString) then parser_fieldname else name
                   | None => parser_fieldname
                   end in
  new_Term fieldname (node_text node).

(** [IntNode.query] *)
Definition IntNode_query (parser_fieldname : string) (node : SyntaxNode) : clause :=
  let q := WordNode_query parser_fieldname node in
  set_integer_field true q.

(** [modify_node_fn(fname, base_fn)] *)
Definition modify_node_fn {R} (fname : string) (base_fn : string → SyntaxNode → R)
  : SyntaxNode → R :=
  λ node, base_fn fname node.

(** [IntNodePlugin.__init__], up to the call of the parent constructor: the
    mapping from each field name to its own function.  [modify_node] is
    [self.modify_node], so a subclass brings its own. *)
Definition plugin_mapping {R} (modify_node : string → SyntaxNode → R)
    (fieldnames : list string) : gmap string (SyntaxNode → R) :=
  foldl (λ mapping name, <[name := modify_node_fn name modify_node]> mapping)
        ∅ fieldnames.

Section coercion.
(** Python's [int(s)] on a string: the integer, or [None] where it raises
    [ValueError]. *)
Variable int_of_str : string → option Z.

(** [int(value)] *)
Definition py_int (value : pyvalue) : outcome Z :=
  match value with
  | PyInt n => Return n
  | PyStr s =>
      match int_of_str s with
      | Some n => Return n
      | None => Raise (ValueError "invalid literal for int() with base 10")
      end
  end.

(** [IntNode.__init__] *)
Definition IntNode_init (value : pyvalue) : outcome SyntaxNode :=
  int_value ← py_int value;
  mret (IntNode int_value (py_str int_value) None).

(** [IntNodePlugin.modify_node]; Python's [None] is [None]. *)
Definition IntNodePlugin_modify_node (fieldname : string) (node : SyntaxNode)
  : outcome (option SyntaxNode) :=
  if has_text node then
    try_except_ValueError
      (new_node ← IntNode_init (PyStr (node_text node));
       let new_node := set_fieldname fieldname new_node in
       mret (Some new_node))
      (mret None)
  else mret (Some node).

(** [YesNoPlugin.modify_node] *)
Definition YesNoPlugin_modify_node (fieldname : string) (node : SyntaxNode)
  : outcome (option SyntaxNode) :=
  if has_text node then
    new_node ← (if bool_decide (node_text node ∈ ["yes"; "y"; "1"])
                then IntNode_init (PyInt 1)
                else IntNode_init (PyInt 0));
    let new_node := set_fieldname fieldname new_node in
    mret (Some new_node)
  else mret (Some node).

Definition IntNodePlugin (fieldnames : list string) :=
  plugin_mapping IntNodePlugin_modify_node fieldnames.

Definition YesNoPlugin (fieldnames : list string) :=
  plugin_mapping YesNoPlugin_modify_node fieldnames.
End coercion.

(** The field names [make_parser] uses when none are given. *)
Definition default_int_fields : list string := ["count"; "number"].
Definition default_yesno_fields : list string := ["is_active"; "is_ready"].

(** ** [convert] and the self-test *)

Definition lift {A} (o : outcome A) : gen A := λ H, Run H [] o.

(** The double quote character, as a string. *)
Definition dquote : string := String "034"%char EmptyString.

(** A phrase in double quotes, as the third entry of [TESTS] writes it. *)
Definition quoted (s : string) : string :=
  String "034"%char (s +:+ String "034"%char EmptyString).

(** The table [TESTS]; each entry is a tuple of strings. *)
Definition TESTS : list (list string) :=
  [ ["foo"; "(field text 'foo')"];
    ["foo:bar"; "(field foo 'bar')"];
    [quoted "foo bar baz"; "(field text 'foo bar baz')"];
    ["foo AND bar"; "(and (field text 'foo') (field text 'bar'))"];
    ["foo AND bar:baz"; "(and (field text 'foo') (field bar 'baz'))"];
    ["foo OR bar"; "(or (field text 'foo') (field text 'bar'))"];
    ["bar:baz OR foo"; "(or (field bar 'baz') (field text 'foo'))"];
    ["NOT foo"; "(not (field text 'foo'))"];
    ["baz NOT bar"; "(and (field text 'baz') (not (field text 'bar')))"];
    ["foo:bar NOT foo:baz"; "(and (field foo 'bar') (not (field foo 'baz')))"];
    ["bar AND foo:-baz"] ].

Definition tab : string := String "009"%char EmptyString.

(** The [print] statement of Python 2 on string items.  A space is written
    before an item when the soft-space flag of the stream is set; writing
    an item sets the flag unless the item ends in a whitespace character
    other than the blank; the newline that ends the statement clears it.
    [print_items] is the line one statement writes, without its newline. *)
Definition isspace (c : ascii) : bool :=
  let n := nat_of_ascii c in
  ((9 <=? n)%nat && (n <=? 13)%nat) || (n =? 32)%nat.

Fixpoint last_char (s : string) : option ascii :=
  match s with
  | EmptyString => None
  | String c EmptyString => Some c
  | String _ s' => last_char s'
  end.

Definition sets_softspace (item : string) : bool :=
  match last_char item with
  | None => true
  | Some c => negb (isspace c) || (nat_of_ascii c =? 32)%nat
  end.

Fixpoint print_items_from (softspace : bool) (items : list string) : string :=
  match items with
  | [] => EmptyString
  | item :: items' =>
      (if softspace then " " else EmptyString)
      +:+ item +:+ print_items_from (sets_softspace item) items'
  end.

Definition print_items (items : list string) : string :=
  print_items_from false items.

Section self_test.
(** [make_parser().parse]: the whoosh parser, taken as given. *)
Variable parser_parse : string → outcome clause.

(** [convert] *)
Definition convert (query : string) : gen string :=
  parsed ← lift (parser_parse query);
  join (walk_clause parsed).

(** The loop of [run_tests] over a table: what is printed, line by line,
    and how the loop ends.  Unpacking an entry into [input_, output]
    needs exactly two items. *)
Fixpoint run_tests_loop (tests : list (list string)) (H : gmap pyclass handler_fn)
  : list string * outcome unit :=
  match tests with
  | [] => ([], Return tt)
  | entry :: tests' =>
      match entry with
      | [input_; output] =>
          let line := print_items [input_; "becomes"; output; "? ... "] in
          let r := convert input_ H in
          match result r with
          | Raise e => ([line], Raise e)
          | Return result_ =>
              if bool_decide (result_ = output) then
                let '(printed, outcome) := run_tests_loop tests' (globals r) in
                (line :: print_items [tab +:+ "yup!"] :: printed, outcome)
              else ([line; print_items [tab +:+ "nope:"; result_]],
                    Raise AssertionError)
          end
      | [] => ([], Raise (ValueError "need more than 0 values to unpack"))
      | [_] => ([], Raise (ValueError "need more than 1 value to unpack"))
      | _ => ([], Raise (ValueError "too many values to unpack"))
      end
  end.

(** [run_tests] *)
Definition run_tests (H : gmap pyclass handler_fn) : list string * outcome unit :=
  run_tests_loop TESTS H.
End self_test.

(** A stand-in for the parser on four queries, with the trees whoosh
    builds for them under [DEFAULT_PLUGINS]: that list has no phrase plugin,
    so a text in double quotes is three words, the quotes staying on the
    first and the last, combined by the default [And]. *)
Definition sample_parse (query : string) : outcome clause :=
  if decide (query = "foo") then Return (new_Term "text" "foo")
  else if decide (query = "foo:bar") then Return (new_Term "foo" "bar")
  else if decide (query = quoted "foo bar baz") then
    Return (new_And [new_Term "text" (dquote +:+ "foo");
                     new_Term "text" "bar";
                     new_Term "text" ("baz" +:+ dquote)])
  else if decide (query = "NOT foo") then Return (new_Not (new_Term "text" "foo"))
  else Raise (ValueError "not a sample query").

(** ** [make_parser], [main] and the script entry *)

(** What [make_parser] adds to the whoosh parser it builds: the default
    field and the two plugins, each a mapping from field name to rule. *)
Record QueryParser : Type :=
  {
    parser_default_field : string;
    parser_int_plugin : gmap string (SyntaxNode → outcome (option SyntaxNode));
    parser_yesno_plugin : gmap string (SyntaxNode → outcome (option SyntaxNode))
  }.

(** [make_parser(default_field, int_fields=..., yesno_fields=...)]; an
    argument left out is [None]. *)
Definition make_parser (int_of_str : string → option Z) (default_field : string)
    (int_fields yesno_fields : option (list string)) : QueryParser :=
  {| parser_default_field := default_field;
     parser_int_plugin :=
       match int_fields with
       | None => IntNodePlugin int_of_str ["count"; "number"]
       | Some int_fields => IntNodePlugin int_of_str int_fields
       end;
     parser_yesno_plugin :=
       match yesno_fields with
       | None => YesNoPlugin int_of_str ["is_active"; "is_ready"]
       | Some yesno_fields => YesNoPlugin int_of_str yesno_fields
       end |}.

Section command_line.
(** [make_parser().parse], and whoosh's [repr] and [str] of a query. *)
Variable parser_parse : string → outcome clause.
Variable repr_clause : clause → string.
Variable str_clause : clause → string.

(** [main(args)]: the lines printed and how the call ends. *)
Definition main (args : list string) (H : gmap pyclass handler_fn)
  : list string * outcome unit :=
  let query := String.concat " " (tail args) in
  let line1 := "Lucene input: " +:+ query in
  match parser_parse query with
  | Raise e => ([line1], Raise e)
  | Return parsed =>
      let line2 := "Parsed representation: " +:+ repr_clause parsed in
      let line3 := "Lucene form: " +:+ str_clause parsed in
      match result (join (walk_clause parsed) H) with
      | Raise e => ([line1; line2; line3], Raise e)
      | Return cloudsearch_query =>
          ([line1; line2; line3; "Cloudsearch form: " +:+ cloudsearch_query],
           Return tt)
      end
  end.

(** The body under [if __name__ == '__main__'], on [sys.argv]. *)
Definition script (argv : list string) (H : gmap pyclass handler_fn)
  : list string * outcome unit :=
  match argv !! 1%nat with
  | None => ([], Raise IndexError)
  | Some arg =>
      if decide (arg = "--test") then run_tests parser_parse H
      else main argv H
  end.
End command_line.

(** ** Trees that render, and the expansion of [AndNot] *)

(** Whether a clause has what its handler reads: a registered class, the
    attributes [build_field] asks for, children that all qualify, and two
    of them under [AndNot]. *)
Fixpoint renderable (c : clause) : bool :=
  match c with
  | Clause cls fieldname text words integer_field children =>
      if decide (cls = Term) then
        bool_decide (is_Some fieldname) && bool_decide (is_Some text)
      else if decide (cls = Phrase) then
        bool_decide (is_Some fieldname)
        && (if default false integer_field then bool_decide (is_Some text)
            else match words with
                 | Some (_ :: _) => true
                 | _ => false
                 end)
      else if decide (cls ∈ [And; Or; Not]) then forallb renderable children
      else if decide (cls = AndNot) then
        match children with
        | [use; avoid] => renderable use && renderable avoid
        | _ => false
        end
      else false
  end.

(** Every [AndNot] node with two children, anywhere in the tree, replaced
    by the [And] of the first and the [Not] of the second. *)
Fixpoint expand_andnot (c : clause) : clause :=
  match c with
  | Clause cls fieldname text words integer_field children =>
      let children' := map expand_andnot children in
      match decide (cls = AndNot), children' with
      | left _, [keep; exclude] => new_And [keep; new_Not exclude]
      | _, _ => Clause cls fieldname text words integer_field children'
      end
  end.

(** ** Parentheses in the output *)

(** How many times a character occurs in a string. *)
Fixpoint count_char (a : ascii) (s : string) : nat :=
  match s with
  | EmptyString => 0
  | String b s' => (if decide (a = b) then 1 else 0) + count_char a s'
  end.

Definition no_parens (s : string) : bool :=
  bool_decide (count_char "(" s = 0%nat) && bool_decide (count_char ")" s = 0%nat).

(** No parenthesis in any field name, text or word of the tree. *)
Fixpoint paren_free (c : clause) : bool :=
  match c with
  | Clause _ fieldname text words _ children =>
      from_option no_parens true fieldname
      && from_option no_parens true text
      && from_option (forallb no_parens) true words
      && forallb paren_free children
  end.

(** ** Query objects in memory

    Python hands a handler a reference to an object, and code that holds a
    reference can assign to the attributes of the object.  To say what
    rendering does to the tree it is given, the handlers are written here
    over a store of objects: a clause is a reference, reading an attribute
    loads the object from the store, [children()] gives references, and a
    run returns the store it leaves together with the dictionary. *)

Definition ref : Type := nat.

Record pyobject : Type :=
  PyObject {
    ob_class : pyclass;
    ob_fieldname : option string;
    ob_text : option string;
    ob_words : option (list string);
    ob_integer_field : option bool;
    ob_children : list ref
  }.

(** What code can read and write: the dictionary [HANDLERS] and the
    objects. *)
Record world : Type :=
  World {
    handlers : gmap pyclass handler_fn;
    objects : gmap ref pyobject
  }.

(** A run from a world: the world it leaves, the pieces yielded, and how it
    ended.  [None] stands for no run of the program at all: a reference to
    no object, or a recursion deeper than the bound given to the walk. *)
Record memrun (A : Type) : Type :=
  MemRun {
    after : world;
    yielded : list string;
    ended : option (outcome A)
  }.
Arguments MemRun {A} after yielded ended.
Arguments after {A} m.
Arguments yielded {A} m.
Arguments ended {A} m.

Definition memgen (A : Type) : Type := world → memrun A.

Definition memgen_ret {A} (a : A) : memgen A := λ w, MemRun w [] (Some (Return a)).

Definition memgen_bind {A B} (k : A → memgen B) (m : memgen A) : memgen B :=
  λ w,
    let r := m w in
    match ended r with
    | Some (Return a) =>
        let r' := k a (after r) in
        MemRun (after r') (yielded r ++ yielded r') (ended r')
    | Some (Raise e) => MemRun (after r) (yielded r) (Some (Raise e))
    | None => MemRun (after r) (yielded r) None
    end.

#[global] Instance memgen_mret : MRet memgen := @memgen_ret.
#[global] Instance memgen_mbind : MBind memgen := @memgen_bind.

Definition raise_at {A} (e : exn) : memgen A := λ w, MemRun w [] (Some (Raise e)).
Definition yield_at (piece : string) : memgen unit :=
  λ w, MemRun w [piece] (Some (Return tt)).

(** [HANDLERS[cls]] *)
Definition HANDLERS_getitem_at (cls : pyclass) : memgen handler_fn :=
  λ w, match handlers w !! cls with
       | Some fn => MemRun w [] (Some (Return fn))
       | None => MemRun w [] (Some (Raise (KeyError cls)))
       end.

(** The object a reference points to. *)
Definition load (clause : ref) : memgen pyobject :=
  λ w, match objects w !! clause with
       | Some o => MemRun w [] (Some (Return o))
       | None => MemRun w [] None
       end.

(** [clause.name], [getattr(clause, name, default)], [clause.__class__],
    [isinstance(clause, cls)] and [clause.children()]. *)
Definition getattr_at {A} (name : string) (attribute : pyobject → option A)
    (clause : ref) : memgen A :=
  o ← load clause;
  match attribute o with
  | Some a => mret a
  | None => raise_at (AttributeError name)
  end.

Definition getattr_default_at {A} (attribute : pyobject → option A) (default_ : A)
    (clause : ref) : memgen A :=
  o ← load clause;
  mret (default default_ (attribute o)).

Definition class_at (clause : ref) : memgen pyclass :=
  o ← load clause;
  mret (ob_class o).

Definition isinstance_at (clause : ref) (cls : pyclass) : memgen bool :=
  o ← load clause;
  mret (issubclass (ob_class o) cls).

Definition children_at (clause : ref) : memgen (list ref) :=
  o ← load clause;
  mret (ob_children o).

(** Writing an object back to its place in the store. *)
Definition store (clause : ref) (o : pyobject) : memgen unit :=
  λ w, MemRun (World (handlers w) (<[clause := o]> (objects w))) [] (Some (Return tt)).

(** [q.integer_field = v], the one assignment to a query object in the
    module ([IntNode.query]). *)
Definition setattr_integer_field_at (q : ref) (v : bool) : memgen unit :=
  o ← load q;
  store q (PyObject (ob_class o) (ob_fieldname o) (ob_text o) (ob_words o)
                    (Some v) (ob_children o)).

Definition for_in_at {A} (xs : list A) (body : A → memgen unit) : memgen unit :=
  (fix loop (xs : list A) : memgen unit :=
     match xs with
     | [] => mret tt
     | x :: xs' => body x ;; loop xs'
     end) xs.

(** [build_field] on a reference. *)
Definition build_field_at (clause : ref) : memgen unit :=
  integer_field ← getattr_default_at ob_integer_field false clause;
  if negb integer_field then
    yield_at "(field " ;;
    fieldname ← getattr_at "fieldname" ob_fieldname clause;
    yield_at fieldname ;;
    yield_at " '" ;;
    is_term ← isinstance_at clause Term;
    (if (is_term : bool) then
       text ← getattr_at "text" ob_text clause;
       yield_at text
     else
       is_phrase ← isinstance_at clause Phrase;
       if (is_phrase : bool) then
         words ← getattr_at "words" ob_words clause;
         for_in_at (removelast words) (λ word, yield_at word ;; yield_at " ") ;;
         words ← getattr_at "words" ob_words clause;
         match last words with
         | Some word => yield_at word
         | None => raise_at IndexError
         end
       else mret tt) ;;
    yield_at "')"
  else
    fieldname ← getattr_at "fieldname" ob_fieldname clause;
    yield_at fieldname ;;
    yield_at ":" ;;
    text ← getattr_at "text" ob_text clause;
    yield_at text.

(** [build_grouper] on a reference. *)
Definition build_grouper_at (walk_clause : ref → memgen unit) (clause : ref)
  : memgen unit :=
  yield_at "(" ;;
  cls ← class_at clause;
  yield_at (lower (__name__ cls)) ;;
  children ← children_at clause;
  for_in_at children (λ child_clause,
    yield_at " " ;;
    walk_clause child_clause) ;;
  yield_at ")".

(** [build_compound] on a reference. *)
Definition build_compound_at (walk_clause : ref → memgen unit) (clause : ref)
  : memgen unit :=
  yield_at "(and " ;;
  children ← children_at clause;
  match children with
  | [use; avoid] =>
      walk_clause use ;;
      yield_at " (not " ;;
      walk_clause avoid ;;
      yield_at "))"
  | [] => raise_at (ValueError "need more than 0 values to unpack")
  | [_] => raise_at (ValueError "need more than 1 value to unpack")
  | _ => raise_at (ValueError "too many values to unpack")
  end.

(** [walk_clause] on a reference.  Objects can refer to each other in a
    cycle, so the recursion is bounded by [depth], the number of nested
    calls allowed; a walk that would go deeper has no run. *)
Fixpoint walk_clause_at (depth : nat) (clause : ref) : memgen unit :=
  match depth with
  | O => λ w, MemRun w [] None
  | S depth' =>
      cls ← class_at clause;
      handler_fn ← HANDLERS_getitem_at cls;
      match handler_fn with
      | fn_build_field => build_field_at clause
      | fn_build_grouper => build_grouper_at (walk_clause_at depth') clause
      | fn_build_compound => build_compound_at (walk_clause_at depth') clause
      end
  end.

(** [''.join(pieces)] *)
Definition join_at (pieces_gen : memgen unit) : memgen string :=
  λ w,
    let r := pieces_gen w in
    match ended r with
    | Some (Return _) =>
        MemRun (after r) [] (Some (Return (String.concat EmptyString (yielded r))))
    | Some (Raise e) => MemRun (after r) [] (Some (Raise e))
    | None => MemRun (after r) [] None
    end.

(** [''.join(walk_clause(parsed))] *)
Definition render_at (depth : nat) (parsed : ref) : memgen string :=
  join_at (walk_clause_at depth parsed).

(** The tree of clauses that a reference stands for in a store, read down
    to [depth] levels: [None] when an object is missing or the tree is
    deeper. *)
Fixpoint tree_at (depth : nat) (objs : gmap ref pyobject) (parsed : ref)
  : option clause :=
  match depth with
  | O => None
  | S depth' =>
      match objs !! parsed with
      | None => None
      | Some o =>
          match mapM (tree_at depth' objs) (ob_children o) with
          | None => None
          | Some children =>
              Some (Clause (ob_class o) (ob_fieldname o) (ob_text o) (ob_words o)
                           (ob_integer_field o) children)
          end
      end
  end.

(** * Vocabulary of the statements *)

(** A computation that leaves the dictionary as it found it. *)
Definition read_only {A} (m : gen A) : Prop := ∀ H, globals (m H) = H.

(** The handler call inside [walk_clause]. *)
Definition call_handler (fn : handler_fn) (clause : clause) : gen unit :=
  match fn with
  | fn_build_field => build_field clause
  | fn_build_grouper => build_grouper walk_clause clause
  | fn_build_compound => build_compound walk_clause clause
  end.

(** A computation on the store that leaves the world, dictionary and
    objects, as it found it. *)
Definition preserves {A} (m : memgen A) : Prop := ∀ w, after (m w) = w.

(** [refines w om m]: from the world [w] the computation [om] on references
    does what [m] does on values from the dictionary of [w]: it ends, in
    the same way, after the same pieces, and leaves [w]. *)
Definition refines {A} (w : world) (om : memgen A) (m : gen A) : Prop :=
  om w = MemRun w (pieces (m (handlers w))) (Some (result (m (handlers w)))).

(** ** Clauses the walk reaches *)

(** [visits H tree node]: walking [tree] with dictionary [H] gets to [node],
    through the children of clauses whose handler recurses. *)
Inductive visits (H : gmap pyclass handler_fn) : clause → clause → Prop :=
| visits_self c : visits H c c
| visits_child c child node fn :
    H !! __class__ c = Some fn →
    fn ≠ fn_build_field →
    child ∈ children c →
    visits H child node →
    visits H c node.

(** ** Induction on clauses, with the hypothesis for every child *)

Fixpoint clause_children_ind (P : clause → Prop)
    (step : ∀ c, Forall P (children c) → P c) (c : clause) : P c :=
  step c
    (match c as c0 return Forall P (children c0) with
     | Clause _ _ _ _ _ cs =>
         (fix all (l : list clause) : Forall P l :=
            match l with
            | [] => Forall_nil_2 P
            | x :: l' => Forall_cons_2 P x l' (clause_children_ind P step x) (all l')
            end) cs
     end).

(** * Properties *)

(** ** Strings *)

Lemma append_cons (c : ascii) (s1 s2 : string) :
  String c s1 +:+ s2 = String c (s1 +:+ s2).
Proof. done. Qed.

Lemma append_nil_r (s : string) : s +:+ EmptyString = s.
Proof. induction s as [|c s IH]; [done|]. by rewrite append_cons, IH. Qed.

Lemma append_assoc (s1 s2 s3 : string) : (s1 +:+ s2) +:+ s3 = s1 +:+ (s2 +:+ s3).
Proof. induction s1 as [|c s1 IH]; [done|]. by rewrite !append_cons, IH. Qed.

Lemma concat_cons (s : string) (l : list string) :
  String.concat EmptyString (s :: l) = s +:+ String.concat EmptyString l.
Proof. destruct l; [by rewrite append_nil_r | done]. Qed.

Lemma concat_app (l1 l2 : list string) :
  String.concat EmptyString (l1 ++ l2) = String.concat EmptyString l1 +:+ String.concat EmptyString l2.
Proof.
  induction l1 as [|s l1 IH]; [done|].
  rewrite <- app_comm_cons, !concat_cons, IH. by rewrite append_assoc.
Qed.

(** ** Runs *)

Lemma run_eta {A} (r : run A) : Run (globals r) (pieces r) (result r) = r.
Proof. by destruct r. Qed.

Lemma bind_Return {A B} (m : gen A) (k : A → gen B) H g ps a :
  m H = Run g ps (Return a) →
  (m ≫= k) H = Run (globals (k a g)) (ps ++ pieces (k a g)) (result (k a g)).
Proof. intros E. unfold mbind, gen_mbind, gen_bind. by rewrite E. Qed.

Lemma bind_Raise {A B} (m : gen A) (k : A → gen B) H g ps e :
  m H = Run g ps (Raise e) → (m ≫= k) H = Run g ps (Raise e).
Proof. intros E. unfold mbind, gen_mbind, gen_bind. by rewrite E. Qed.

Lemma bind_yield {B} (piece : string) (k : unit → gen B) H :
  (yield piece ≫= k) H
  = Run (globals (k tt H)) (piece :: pieces (k tt H)) (result (k tt H)).
Proof. done. Qed.

Lemma read_only_ret {A} (a : A) : read_only (mret a).
Proof. done. Qed.

Lemma read_only_raise {A} e : read_only (@raise A e).
Proof. done. Qed.

Lemma read_only_yield piece : read_only (yield piece).
Proof. done. Qed.

Lemma read_only_getattr {A} name (v : option A) : read_only (getattr name v).
Proof. by destruct v. Qed.

Lemma read_only_getitem cls : read_only (HANDLERS_getitem cls).
Proof. intros H. unfold HANDLERS_getitem. by destruct (H !! cls). Qed.

Lemma read_only_bind {A B} (m : gen A) (k : A → gen B) :
  read_only m → (∀ a, read_only (k a)) → read_only (m ≫= k).
Proof.
  intros Hm Hk H. unfold mbind, gen_mbind, gen_bind.
  specialize (Hm H). destruct (m H) as [g ps [a|e]]; simpl in *; subst g; [|done].
  apply Hk.
Qed.

Lemma read_only_for_in {A} (xs : list A) (body : A → gen unit) :
  Forall (λ x, read_only (body x)) xs → read_only (for_in xs body).
Proof.
  induction 1 as [|x xs Hx _ IH]; [done|].
  change (for_in (x :: xs) body) with (body x ≫= λ _, for_in xs body).
  by apply read_only_bind.
Qed.

Create HintDb read_only.
#[local] Hint Resolve read_only_ret read_only_raise read_only_yield
  read_only_getattr read_only_getitem : read_only.

Ltac read_only_step :=
  first [ apply read_only_bind; [|intros ?]
        | apply read_only_for_in
        | solve [auto with read_only] ].

(** ** Dispatch *)

Lemma walk_clause_eq (c : clause) :
  walk_clause c = (HANDLERS_getitem (__class__ c) ≫= λ fn, call_handler fn c).
Proof. by destruct c. Qed.

Lemma walk_clause_registered (c : clause) H fn :
  H !! __class__ c = Some fn → walk_clause c H = call_handler fn c H.
Proof.
  intros E. rewrite walk_clause_eq.
  erewrite bind_Return; [|unfold HANDLERS_getitem; by rewrite E].
  apply run_eta.
Qed.

Lemma walk_clause_unregistered (c : clause) H :
  H !! __class__ c = None → walk_clause c H = Run H [] (Raise (KeyError (__class__ c))).
Proof.
  intros E. rewrite walk_clause_eq.
  erewrite bind_Raise; [done|]. unfold HANDLERS_getitem. by rewrite E.
Qed.

Lemma read_only_build_field c : read_only (build_field c).
Proof.
  unfold build_field.
  destruct (negb _); [|repeat read_only_step].
  repeat read_only_step.
  destruct (issubclass _ Term); [repeat read_only_step|].
  destruct (issubclass _ Phrase); [|repeat read_only_step].
  repeat read_only_step.
  - apply Forall_true. intros word. repeat read_only_step.
  - destruct (last _); repeat read_only_step.
Qed.

Lemma read_only_walk_clause c : read_only (walk_clause c).
Proof.
  induction c as [c IH] using clause_children_ind.
  rewrite walk_clause_eq. apply read_only_bind; [auto with read_only|].
  intros [| |]; simpl.
  - apply read_only_build_field.
  - unfold build_grouper. repeat read_only_step.
  - unfold build_compound. repeat read_only_step.
    destruct (children c) as [|use [|avoid [|? ?]]]; try solve [repeat read_only_step].
    apply Forall_cons in IH as [Huse IH]. apply Forall_cons in IH as [Havoid _].
    repeat read_only_step.
Qed.

Lemma read_only_join m : read_only m → read_only (join m).
Proof.
  intros Hm H. unfold join. specialize (Hm H).
  by destruct (m H) as [g ps [a|e]].
Qed.

Lemma read_only_render c : read_only (render c).
Proof. apply read_only_join, read_only_walk_clause. Qed.

(** ** The dictionary of the imported module *)

Lemma l2cs_module_imports : result (l2cs_module ∅) = Return tt.
Proof. reflexivity. Qed.

Lemma HANDLERS_eq :
  HANDLERS = <[AndNot := fn_build_compound]>
              (<[Not := fn_build_grouper]>
                (<[Or := fn_build_grouper]>
                  (<[And := fn_build_grouper]>
                    (<[Phrase := fn_build_field]>
                      (<[Term := fn_build_field]> ∅))))).
Proof. reflexivity. Qed.

Lemma HANDLERS_None (cls : pyclass) :
  cls ∉ [Term; Phrase; And; Or; Not; AndNot] → HANDLERS !! cls = None.
Proof.
  intros Hcls. rewrite HANDLERS_eq.
  rewrite !lookup_insert_ne; [apply lookup_empty|..];
    intros <-; apply Hcls; set_solver.
Qed.

Lemma HANDLERS_Some (cls : pyclass) (fn : handler_fn) :
  HANDLERS !! cls = Some fn →
  cls ∈ [Term; Phrase; And; Or; Not; AndNot].
Proof.
  intros E. destruct (decide (cls ∈ [Term; Phrase; And; Or; Not; AndNot])) as [|Hn];
    [done|]. apply HANDLERS_None in Hn. congruence.
Qed.

(** ** Rendering in terms of the generator run *)

Lemma walk_clause_run c H :
  walk_clause c H = Run H (pieces (walk_clause c H)) (result (walk_clause c H)).
Proof. rewrite <- (read_only_walk_clause c H) at 2. by rewrite run_eta. Qed.

Lemma render_of_walk_Return c H ps :
  walk_clause c H = Run H ps (Return tt) →
  render c H = Run H [] (Return (String.concat EmptyString ps)).
Proof. intros E. unfold render, join. by rewrite E. Qed.

Lemma render_of_walk_Raise c H ps e :
  walk_clause c H = Run H ps (Raise e) → render c H = Run H [] (Raise e).
Proof. intros E. unfold render, join. by rewrite E. Qed.

Lemma render_Return_inv c H s :
  render c H = Run H [] (Return s) →
  ∃ ps, walk_clause c H = Run H ps (Return tt) ∧ String.concat EmptyString ps = s.
Proof.
  unfold render, join. rewrite (walk_clause_run c H). simpl.
  destruct (result (walk_clause c H)) as [[]|e]; [|done].
  intros [= <-]. eauto.
Qed.

Lemma render_Raise_inv c H e :
  render c H = Run H [] (Raise e) → ∃ ps, walk_clause c H = Run H ps (Raise e).
Proof.
  unfold render, join. rewrite (walk_clause_run c H). simpl.
  destruct (result (walk_clause c H)) as [[]|e']; [done|].
  intros [= <-]. eauto.
Qed.

(** The loop of [build_grouper] over children that all render. *)
Lemma grouper_loop_ok H (cs : list clause) (ss : list string) :
  Forall2 (λ child s, render child H = Run H [] (Return s)) cs ss →
  ∃ ps, for_in cs (λ child, yield " " ;; walk_clause child) H = Run H ps (Return tt)
        ∧ String.concat EmptyString ps = String.concat EmptyString (map (λ s, " " +:+ s) ss).
Proof.
  induction 1 as [|child s cs ss Hchild _ (ps' & Eloop & Eps')].
  - by exists [].
  - apply render_Return_inv in Hchild as (ps & Ewalk & <-).
    exists ((" " :: ps) ++ ps'). split.
    + change (for_in (child :: cs) ?b) with (b child ≫= λ _, for_in cs b).
      erewrite bind_Return; [by rewrite Eloop|].
      rewrite bind_yield. by rewrite Ewalk.
    + rewrite concat_app, Eps'. simpl map. by rewrite !concat_cons, append_assoc.
Qed.

(** The loop stops at the first child that raises, left to right. *)
Lemma grouper_loop_raise H (cs : list clause) (ss : list string) bad rest e :
  Forall2 (λ child s, render child H = Run H [] (Return s)) cs ss →
  render bad H = Run H [] (Raise e) →
  ∃ ps, for_in (cs ++ bad :: rest) (λ child, yield " " ;; walk_clause child) H
        = Run H ps (Raise e).
Proof.
  intros Hcs Hbad. apply render_Raise_inv in Hbad as (psb & Ebad).
  induction Hcs as [|child s cs ss Hchild _ (ps' & Eloop)].
  - exists (" " :: psb). simpl app.
    change (for_in (bad :: rest) ?b) with (b bad ≫= λ _, for_in rest b).
    erewrite bind_Raise; [done|]. rewrite bind_yield. by rewrite Ebad.
  - apply render_Return_inv in Hchild as (ps & Ewalk & <-).
    exists ((" " :: ps) ++ ps'). rewrite <- app_comm_cons.
    change (for_in (child :: ?l) ?b) with (b child ≫= λ _, for_in l b).
    erewrite bind_Return; [by rewrite Eloop|].
    rewrite bind_yield. by rewrite Ewalk.
Qed.

(** [build_grouper] on children that all render. *)
Lemma build_grouper_ok H (c : clause) (ss : list string) :
  Forall2 (λ child s, render child H = Run H [] (Return s)) (children c) ss →
  ∃ ps, build_grouper walk_clause c H = Run H ps (Return tt)
        ∧ String.concat EmptyString ps
          = "(" +:+ lower (__name__ (__class__ c))
                +:+ String.concat EmptyString (map (λ s, " " +:+ s) ss) +:+ ")".
Proof.
  intros Hcs. apply grouper_loop_ok in Hcs as (ps & Eloop & Eps).
  exists ("(" :: lower (__name__ (__class__ c)) :: ps ++ [")"]). split.
  - unfold build_grouper. rewrite !bind_yield.
    erewrite bind_Return; [|exact Eloop]. done.
  - rewrite !concat_cons, concat_app, Eps. done.
Qed.

Lemma build_grouper_raise H (c : clause) rendered (ss : list string) bad rest e :
  children c = rendered ++ bad :: rest →
  Forall2 (λ child s, render child H = Run H [] (Return s)) rendered ss →
  render bad H = Run H [] (Raise e) →
  ∃ ps, build_grouper walk_clause c H = Run H ps (Raise e).
Proof.
  intros Ec Hcs Hbad.
  destruct (grouper_loop_raise H rendered ss bad rest e Hcs Hbad) as (ps & Eloop).
  exists ("(" :: lower (__name__ (__class__ c)) :: ps).
  unfold build_grouper. rewrite !bind_yield, Ec.
  erewrite bind_Raise; [|exact Eloop]. done.
Qed.

(** Every rendering either returns a string or raises, and leaves the
    dictionary alone. *)
Lemma render_cases c H :
  (∃ s, render c H = Run H [] (Return s)) ∨ (∃ e, render c H = Run H [] (Raise e)).
Proof.
  unfold render, join. rewrite (walk_clause_run c H). simpl.
  destruct (result (walk_clause c H)); eauto.
Qed.

Lemma render_grouper_ok H (c : clause) (ss : list string) :
  H !! __class__ c = Some fn_build_grouper →
  Forall2 (λ child s, render child H = Run H [] (Return s)) (children c) ss →
  render c H
  = Run H [] (Return ("(" +:+ lower (__name__ (__class__ c))
                          +:+ String.concat EmptyString (map (λ s, " " +:+ s) ss) +:+ ")")).
Proof.
  intros Hfn Hcs. apply build_grouper_ok in Hcs as (ps & E & <-).
  apply render_of_walk_Return. by rewrite (walk_clause_registered c H _ Hfn).
Qed.

Lemma render_grouper_raise H (c : clause) rendered (ss : list string) bad rest e :
  H !! __class__ c = Some fn_build_grouper →
  children c = rendered ++ bad :: rest →
  Forall2 (λ child s, render child H = Run H [] (Return s)) rendered ss →
  render bad H = Run H [] (Raise e) →
  render c H = Run H [] (Raise e).
Proof.
  intros Hfn Ec Hcs Hbad.
  destruct (build_grouper_raise H c rendered ss bad rest e Ec Hcs Hbad) as (ps & E).
  apply render_of_walk_Raise with ps. by rewrite (walk_clause_registered c H _ Hfn).
Qed.

Lemma render_compound_ok H (c use avoid : clause) (k e : string) :
  H !! __class__ c = Some fn_build_compound →
  children c = [use; avoid] →
  render use H = Run H [] (Return k) →
  render avoid H = Run H [] (Return e) →
  render c H = Run H [] (Return ("(and " +:+ k +:+ " (not " +:+ e +:+ "))")).
Proof.
  intros Hfn Ec Huse Havoid.
  apply render_Return_inv in Huse as (psk & Euse & <-).
  apply render_Return_inv in Havoid as (pse & Eavoid & <-).
  replace ("(and " +:+ String.concat EmptyString psk +:+ " (not " +:+ String.concat EmptyString pse +:+ "))")
    with (String.concat EmptyString ("(and " :: psk ++ " (not " :: pse ++ ["))"])).
  - apply render_of_walk_Return. rewrite (walk_clause_registered c H _ Hfn).
    simpl. unfold build_compound. rewrite bind_yield, Ec.
    erewrite bind_Return; [|exact Euse]. rewrite bind_yield.
    erewrite bind_Return; [|exact Eavoid]. done.
  - by rewrite concat_cons, concat_app, concat_cons, concat_app.
Qed.

Lemma render_compound_raise_use H (c use avoid : clause) err :
  H !! __class__ c = Some fn_build_compound →
  children c = [use; avoid] →
  render use H = Run H [] (Raise err) →
  render c H = Run H [] (Raise err).
Proof.
  intros Hfn Ec Huse. apply render_Raise_inv in Huse as (psk & Euse).
  apply render_of_walk_Raise with ("(and " :: psk).
  rewrite (walk_clause_registered c H _ Hfn).
  simpl. unfold build_compound. rewrite bind_yield, Ec.
  erewrite bind_Raise; [|exact Euse]. done.
Qed.

Lemma render_compound_raise_avoid H (c use avoid : clause) k err :
  H !! __class__ c = Some fn_build_compound →
  children c = [use; avoid] →
  render use H = Run H [] (Return k) →
  render avoid H = Run H [] (Raise err) →
  render c H = Run H [] (Raise err).
Proof.
  intros Hfn Ec Huse Havoid.
  apply render_Return_inv in Huse as (psk & Euse & _).
  apply render_Raise_inv in Havoid as (pse & Eavoid).
  apply render_of_walk_Raise with ("(and " :: psk ++ " (not " :: pse).
  rewrite (walk_clause_registered c H _ Hfn).
  simpl. unfold build_compound. rewrite bind_yield, Ec.
  erewrite bind_Return; [|exact Euse]. rewrite bind_yield.
  erewrite bind_Raise; [|exact Eavoid]. done.
Qed.

(** * Properties of the specification *)

(** C1.  An [AndNot] clause with the two children [keep] and [exclude]
    renders exactly as the group [And([keep, Not(exclude)])] does, whether
    the operands render or raise; when they render to [k] and [e] the
    output is [(and k (not e))]. *)
Theorem andnot_renders_as_and_not (c keep exclude : clause) :
  __class__ c = AndNot →
  children c = [keep; exclude] →
  render c HANDLERS = render (new_And [keep; new_Not exclude]) HANDLERS
  ∧ ∀ k e,
      render keep HANDLERS = Run HANDLERS [] (Return k) →
      render exclude HANDLERS = Run HANDLERS [] (Return e) →
      render c HANDLERS
      = Run HANDLERS [] (Return ("(and " +:+ k +:+ " (not " +:+ e +:+ "))")).
Proof.
  intros Hcls Ec.
  assert (Hc : HANDLERS !! __class__ c = Some fn_build_compound) by (by rewrite Hcls).
  split; [|intros k e; by apply render_compound_ok].
  destruct (render_cases keep HANDLERS) as [[k Ek]|[err Ek]].
  - destruct (render_cases exclude HANDLERS) as [[e Ee]|[err Ee]].
    + rewrite (render_compound_ok _ c keep exclude k e Hc Ec Ek Ee).
      assert (En : render (new_Not exclude) HANDLERS
                   = Run HANDLERS [] (Return ("(not " +:+ e +:+ ")"))).
      { rewrite (render_grouper_ok _ (new_Not exclude) [e]); [|done|by constructor].
        simpl. by rewrite append_assoc. }
      rewrite (render_grouper_ok _ (new_And [keep; new_Not exclude])
                 [k; "(not " +:+ e +:+ ")"]); [|done|by repeat constructor].
      simpl. by rewrite !append_assoc.
    + rewrite (render_compound_raise_avoid _ c keep exclude k err Hc Ec Ek Ee).
      symmetry. apply (render_grouper_raise _ _ [keep] [k] (new_Not exclude) []);
        [done|done|by constructor|].
      by apply (render_grouper_raise _ _ [] [] exclude []); [done|done|constructor|].
  - rewrite (render_compound_raise_use _ c keep exclude err Hc Ec Ek).
    symmetry.
    by apply (render_grouper_raise _ _ [] [] keep [new_Not exclude]);
      [done|done|constructor|].
Qed.

Lemma andnot_renders_as_and_not_witness :
  let c := new_AndNot (new_Term "text" "baz") (new_Term "text" "bar") in
  render c HANDLERS
  = render (new_And [new_Term "text" "baz"; new_Not (new_Term "text" "bar")]) HANDLERS
  ∧ render c HANDLERS
    = Run HANDLERS [] (Return "(and (field text 'baz') (not (field text 'bar')))").
Proof.
  intros c.
  destruct (andnot_renders_as_and_not c (new_Term "text" "baz") (new_Term "text" "bar")
              eq_refl eq_refl) as [Hsame Hform].
  split; [exact Hsame|].
  exact (Hform "(field text 'baz')" "(field text 'bar')" eq_refl eq_refl).
Defined.

(** C3.  A clause of class [And], [Or] or [Not] renders as an open
    parenthesis, the lower-cased class name, each child's rendering preceded
    by one space and in the order of [children()], and a close
    parenthesis. *)
Theorem group_renders_children_in_order (c : clause) (kw : string) (ss : list string) :
  (__class__ c, kw) ∈ [(And, "and"); (Or, "or"); (Not, "not")] →
  Forall2 (λ child s, render child HANDLERS = Run HANDLERS [] (Return s))
          (children c) ss →
  render c HANDLERS
  = Run HANDLERS []
      (Return ("(" +:+ kw +:+ String.concat EmptyString (map (λ s, " " +:+ s) ss) +:+ ")")).
Proof.
  intros Hkind Hcs.
  assert (HANDLERS !! __class__ c = Some fn_build_grouper
          ∧ kw = lower (__name__ (__class__ c))) as [Hfn ->].
  { repeat (apply elem_of_cons in Hkind as [[= -> ->]|Hkind]; [done|]).
    by apply elem_of_nil in Hkind. }
  by apply render_grouper_ok.
Qed.

Lemma group_renders_children_in_order_witness :
  render (new_Or [new_Term "bar" "baz"; new_Term "text" "foo"]) HANDLERS
  = Run HANDLERS [] (Return "(or (field bar 'baz') (field text 'foo'))").
Proof.
  apply (group_renders_children_in_order
           (new_Or [new_Term "bar" "baz"; new_Term "text" "foo"]) "or"
           ["(field bar 'baz')"; "(field text 'foo')"]).
  - set_solver.
  - repeat constructor.
Defined.

(** The words of a phrase as [build_field] yields them: every word but the
    last followed by a space, then the last. *)
Lemma words_loop_run (ws : list string) H :
  for_in ws (λ word, yield word ;; yield " ") H
  = Run H (flat_map (λ word, [word; " "]) ws) (Return tt).
Proof.
  induction ws as [|w ws IH]; [done|].
  change (for_in (w :: ws) ?b) with (b w ≫= λ _, for_in ws b).
  rewrite (bind_Return _ _ H H [w; " "] tt) by reflexivity. by rewrite IH.
Qed.

Lemma words_pieces_concat (ws : list string) (w : string) :
  last ws = Some w →
  String.concat EmptyString (flat_map (λ word, [word; " "]) (removelast ws) ++ [w])
  = String.concat " " ws.
Proof.
  revert w. induction ws as [|w0 ws IH]; intros w Hl; [done|].
  destruct ws as [|w1 ws].
  - by injection Hl as ->.
  - change (removelast (w0 :: w1 :: ws)) with (w0 :: removelast (w1 :: ws)).
    change (flat_map ?f (w0 :: ?l)) with (f w0 ++ flat_map f l).
    rewrite <- app_assoc, concat_app, (IH w Hl).
    change (String.concat " " (w0 :: w1 :: ws))
      with (w0 +:+ " " +:+ String.concat " " (w1 :: ws)).
    by rewrite !concat_cons, append_assoc.
Qed.

(** C2.  A [Term] or [Phrase] leaf without the [integer_field] tag renders
    as [(field <fieldname> '<value>')], the value being the text of a
    [Term] or the words of a [Phrase] joined by single spaces, verbatim;
    with the tag set it renders as [<fieldname>:<text>]. *)
Theorem leaf_rendering (c : clause) (f : string) :
  __class__ c ∈ [Term; Phrase] →
  fieldname c = Some f →
  (∀ t, __class__ c = Term → text c = Some t →
        default false (integer_field c) = false →
        render c HANDLERS
        = Run HANDLERS [] (Return ("(field " +:+ f +:+ " '" +:+ t +:+ "')")))
  ∧ (∀ ws, __class__ c = Phrase → words c = Some ws → ws ≠ [] →
           default false (integer_field c) = false →
           render c HANDLERS
           = Run HANDLERS []
               (Return ("(field " +:+ f +:+ " '" +:+ String.concat " " ws +:+ "')")))
  ∧ (∀ t, text c = Some t → integer_field c = Some true →
          render c HANDLERS = Run HANDLERS [] (Return (f +:+ ":" +:+ t))).
Proof.
  intros Hcls Hf.
  assert (Hfn : HANDLERS !! __class__ c = Some fn_build_field).
  { repeat (apply elem_of_cons in Hcls as [->|Hcls]; [done|]).
    by apply elem_of_nil in Hcls. }
  split; [|split].
  - intros t Ec Ht Hi.
    replace ("(field " +:+ f +:+ " '" +:+ t +:+ "')")
      with (String.concat EmptyString ["(field "; f; " '"; t; "')"]) by done.
    apply render_of_walk_Return. rewrite (walk_clause_registered c _ _ Hfn).
    simpl. unfold build_field. by rewrite Hi, Hf, Ec, Ht.
  - intros ws Ec Hws Hne Hi.
    destruct (last ws) as [w|] eqn:Hl; [|apply last_None in Hl; congruence].
    rewrite <- (words_pieces_concat ws w Hl).
    set (ps := flat_map (λ word, [word; " "]) (removelast ws) ++ [w]).
    replace ("(field " +:+ f +:+ " '" +:+ String.concat EmptyString ps +:+ "')")
      with (String.concat EmptyString ("(field " :: f :: " '" :: ps ++ ["')"]))
      by (by rewrite !concat_cons, concat_app).
    apply render_of_walk_Return. rewrite (walk_clause_registered c _ _ Hfn).
    simpl. unfold build_field. rewrite Hi, Hf, Ec, Hws. simpl negb. cbv iota.
    change (issubclass Phrase Term) with false.
    change (issubclass Phrase Phrase) with true. cbv iota.
    change (negb false) with true. cbv iota.
    rewrite bind_yield, (bind_Return _ _ _ HANDLERS [] f) by reflexivity.
    rewrite !bind_yield.
    rewrite (bind_Return _ _ _ HANDLERS ps tt); [reflexivity|].
    rewrite (bind_Return _ _ _ HANDLERS [] ws) by reflexivity.
    rewrite (bind_Return _ _ _ _ _ tt (words_loop_run _ _)).
    by rewrite Hl.
  - intros t Ht Hi.
    replace (f +:+ ":" +:+ t) with (String.concat EmptyString [f; ":"; t]) by done.
    apply render_of_walk_Return. rewrite (walk_clause_registered c _ _ Hfn).
    simpl. unfold build_field. by rewrite Hi, Hf, Ht.
Qed.

Lemma leaf_rendering_witness :
  render (new_Phrase "text" ["foo"; "bar"; "baz"]) HANDLERS
  = Run HANDLERS [] (Return "(field text 'foo bar baz')")
  ∧ render (new_Term "foo" "it's (bar)") HANDLERS
    = Run HANDLERS [] (Return "(field foo 'it's (bar)')")
  ∧ render (set_integer_field true (new_Term "count" "12")) HANDLERS
    = Run HANDLERS [] (Return "count:12").
Proof.
  split; [|split].
  - destruct (leaf_rendering (new_Phrase "text" ["foo"; "bar"; "baz"]) "text")
      as (_ & Hphrase & _); [set_solver|reflexivity|].
    apply (Hphrase ["foo"; "bar"; "baz"]); [reflexivity..|discriminate|reflexivity].
  - destruct (leaf_rendering (new_Term "foo" "it's (bar)") "foo")
      as (Hterm & _ & _); [set_solver|reflexivity|].
    apply (Hterm "it's (bar)"); reflexivity.
  - destruct (leaf_rendering (set_integer_field true (new_Term "count" "12")) "count")
      as (_ & _ & Htagged); [set_solver|reflexivity|].
    apply (Htagged "12"); reflexivity.
Defined.

(** Outside the data model: a phrase without words fails on [words[-1]], and
    an object without a [text] attribute that carries the tag fails on
    [clause.text]. *)
Lemma empty_phrase_raises (f : string) :
  render (new_Phrase f []) HANDLERS = Run HANDLERS [] (Raise IndexError).
Proof. reflexivity. Qed.

Lemma tagged_phrase_raises (f : string) (ws : list string) :
  render (set_integer_field true (new_Phrase f ws)) HANDLERS
  = Run HANDLERS [] (Raise (AttributeError "text")).
Proof. reflexivity. Qed.

Lemma grouper_loop_some_raise H (cs : list clause) child e :
  child ∈ cs →
  render child H = Run H [] (Raise e) →
  ∃ ps e', for_in cs (λ child, yield " " ;; walk_clause child) H = Run H ps (Raise e').
Proof.
  intros Hin Hchild. induction cs as [|x cs IH]; [by apply elem_of_nil in Hin|].
  change (for_in (x :: cs) ?b) with (b x ≫= λ _, for_in cs b).
  destruct (render_cases x H) as [[s Ex]|[e' Ex]].
  - apply elem_of_cons in Hin as [->|Hin]; [congruence|].
    destruct (IH Hin) as (ps' & e' & Eloop).
    apply render_Return_inv in Ex as (ps & Ewalk & _).
    exists ((" " :: ps) ++ ps'), e'.
    erewrite bind_Return; [by rewrite Eloop|]. rewrite bind_yield. by rewrite Ewalk.
  - apply render_Raise_inv in Ex as (ps & Ewalk).
    exists (" " :: ps), e'.
    erewrite bind_Raise; [done|]. rewrite bind_yield. by rewrite Ewalk.
Qed.

Lemma render_child_raise H (c child : clause) fn e :
  H !! __class__ c = Some fn →
  fn ≠ fn_build_field →
  child ∈ children c →
  render child H = Run H [] (Raise e) →
  ∃ e', render c H = Run H [] (Raise e').
Proof.
  intros Hfn Hrec Hin Hchild. destruct fn; [done| |].
  - destruct (grouper_loop_some_raise H (children c) child e Hin Hchild)
      as (ps & e' & Eloop).
    exists e'. apply render_of_walk_Raise with ("(" :: lower (__name__ (__class__ c)) :: ps).
    rewrite (walk_clause_registered c H _ Hfn). simpl. unfold build_grouper.
    rewrite !bind_yield. erewrite bind_Raise; [|exact Eloop]. done.
  - destruct (children c) as [|use [|avoid [|extra rest]]] eqn:Ec.
    + by apply elem_of_nil in Hin.
    + eexists. apply render_of_walk_Raise with ["(and "].
      rewrite (walk_clause_registered c H _ Hfn). simpl. unfold build_compound.
      by rewrite bind_yield, Ec.
    + destruct (render_cases use H) as [[k Euse]|[e' Euse]].
      * apply elem_of_cons in Hin as [->|Hin]; [congruence|].
        apply list_elem_of_singleton in Hin as ->.
        exists e. by apply (render_compound_raise_avoid H c use avoid k).
      * exists e'. by apply (render_compound_raise_use H c use avoid).
    + eexists. apply render_of_walk_Raise with ["(and "].
      rewrite (walk_clause_registered c H _ Hfn). simpl. unfold build_compound.
      by rewrite bind_yield, Ec.
Qed.

(** C6.  A clause whose class has no entry in the dictionary makes
    [walk_clause] raise [KeyError] before anything is yielded; no other
    rendering is tried, and the rendering of any tree whose walk reaches
    such a clause ends in an exception instead of a string. *)
Theorem unregistered_kind_raises (H : gmap pyclass handler_fn) (node : clause) :
  H !! __class__ node = None →
  walk_clause node H = Run H [] (Raise (KeyError (__class__ node)))
  ∧ render node H = Run H [] (Raise (KeyError (__class__ node)))
  ∧ ∀ tree, visits H tree node → ∃ e, render tree H = Run H [] (Raise e).
Proof.
  intros Hnone.
  assert (Ewalk := walk_clause_unregistered node H Hnone).
  assert (Erender := render_of_walk_Raise node H [] _ Ewalk).
  split; [done|]. split; [done|].
  induction 1 as [c|c child node fn Hfn Hrec Hin _ IH]; [eauto|].
  destruct (IH Hnone Ewalk Erender) as [e Echild].
  by apply (render_child_raise H c child fn e).
Qed.

Lemma unregistered_kind_raises_witness :
  let tree := new_And [new_Term "text" "foo"; new_Not (new_Prefix "text" "ba")] in
  walk_clause (new_Prefix "text" "ba") HANDLERS
  = Run HANDLERS [] (Raise (KeyError Prefix))
  ∧ ∃ e, render tree HANDLERS = Run HANDLERS [] (Raise e).
Proof.
  intros tree.
  destruct (unregistered_kind_raises HANDLERS (new_Prefix "text" "ba") eq_refl)
    as (Hwalk & _ & Htree).
  split; [exact Hwalk|]. apply Htree. unfold tree.
  apply visits_child with (new_Not (new_Prefix "text" "ba")) fn_build_grouper;
    [reflexivity|discriminate|simpl; repeat constructor|].
  apply visits_child with (new_Prefix "text" "ba") fn_build_grouper;
    [reflexivity|discriminate|simpl; repeat constructor|].
  apply visits_self.
Defined.

(** Every handler yields a piece before it can fail on anything but a
    missing attribute, so no handler's run is the bare [KeyError] of a
    failed lookup. *)
Lemma call_handler_not_KeyError fn (c : clause) H key :
  call_handler fn c H ≠ Run H [] (Raise (KeyError key)).
Proof.
  destruct fn; simpl.
  - unfold build_field. destruct (negb _).
    + rewrite bind_yield. intros [=].
    + destruct (fieldname c) as [f|]; [|intros [=]].
      rewrite (bind_Return _ _ _ H [] f) by reflexivity.
      rewrite bind_yield. intros [=].
  - unfold build_grouper. rewrite bind_yield. intros [=].
  - unfold build_compound. rewrite bind_yield. intros [=].
Qed.

(** C10.  The lookup key is the class of the clause itself: a clause whose
    class is a strict subclass of a registered class, and is not registered,
    makes [walk_clause] raise [KeyError] for its own class; the handler of
    the registered ancestor is not run. *)
Theorem subclass_is_not_dispatched_to_parent
    (H : gmap pyclass handler_fn) (c : clause) (parent : pyclass) (fn : handler_fn) :
  issubclass (__class__ c) parent = true →
  __class__ c ≠ parent →
  H !! parent = Some fn →
  H !! __class__ c = None →
  walk_clause c H = Run H [] (Raise (KeyError (__class__ c)))
  ∧ render c H = Run H [] (Raise (KeyError (__class__ c)))
  ∧ walk_clause c H ≠ call_handler fn c H.
Proof.
  intros _ _ _ Hnone.
  assert (Ewalk := walk_clause_unregistered c H Hnone).
  split; [done|]. split; [by apply render_of_walk_Raise with []|].
  rewrite Ewalk. intros E. symmetry in E. by apply call_handler_not_KeyError in E.
Qed.

Lemma subclass_is_not_dispatched_to_parent_witness :
  let DefaultOr := subclass "DefaultOr" Or in
  let c := Clause DefaultOr None None None None [new_Term "text" "foo"] in
  walk_clause c HANDLERS = Run HANDLERS [] (Raise (KeyError DefaultOr))
  ∧ render c HANDLERS = Run HANDLERS [] (Raise (KeyError DefaultOr))
  ∧ walk_clause c HANDLERS ≠ call_handler fn_build_grouper c HANDLERS.
Proof.
  intros DefaultOr c.
  apply (subclass_is_not_dispatched_to_parent HANDLERS c Or fn_build_grouper);
    [reflexivity|discriminate|reflexivity|reflexivity].
Defined.

(** ** Rendering a tree held in memory *)

Lemma preserves_ret {A} (a : A) : preserves (mret a).
Proof. intros w. reflexivity. Qed.

Lemma preserves_raise_at {A} e : preserves (@raise_at A e).
Proof. intros w. reflexivity. Qed.

Lemma preserves_yield_at piece : preserves (yield_at piece).
Proof. intros w. reflexivity. Qed.

Lemma preserves_getitem_at cls : preserves (HANDLERS_getitem_at cls).
Proof. intros w. unfold HANDLERS_getitem_at. by destruct (handlers w !! cls). Qed.

Lemma preserves_load clause : preserves (load clause).
Proof. intros w. unfold load. by destruct (objects w !! clause). Qed.

Lemma preserves_bind {A B} (m : memgen A) (k : A → memgen B) :
  preserves m → (∀ a, preserves (k a)) → preserves (m ≫= k).
Proof.
  intros Hm Hk w. unfold mbind, memgen_mbind, memgen_bind.
  specialize (Hm w). destruct (m w) as [w' ps [[a|e]|]]; simpl in *; subst w'.
  - apply Hk.
  - reflexivity.
  - reflexivity.
Qed.

Lemma preserves_for_in_at {A} (xs : list A) (body : A → memgen unit) :
  (∀ x, preserves (body x)) → preserves (for_in_at xs body).
Proof.
  intros Hbody. induction xs as [|x xs IH]; [apply preserves_ret|].
  change (for_in_at (x :: xs) body) with (body x ≫= λ _, for_in_at xs body).
  apply preserves_bind; [apply Hbody|]. intros _. exact IH.
Qed.

Lemma preserves_read {A} (f : pyobject → A) clause :
  preserves (load clause ≫= λ o, mret (f o)).
Proof. apply preserves_bind; [apply preserves_load|]. intros o. apply preserves_ret. Qed.

Lemma preserves_getattr_at {A} name (attribute : pyobject → option A) clause :
  preserves (getattr_at name attribute clause).
Proof.
  apply preserves_bind; [apply preserves_load|]. intros o.
  destruct (attribute o); [apply preserves_ret|apply preserves_raise_at].
Qed.

Create HintDb preserves.
#[local] Hint Resolve preserves_ret preserves_raise_at preserves_yield_at
  preserves_getitem_at preserves_load preserves_getattr_at : preserves.

Ltac preserves_step :=
  first [ solve [auto with preserves]
        | apply preserves_for_in_at; intros ?
        | match goal with
          | |- preserves (match ?x with _ => _ end) => destruct x
          end
        | apply preserves_bind; [|intros ?] ].

Lemma preserves_build_field_at clause : preserves (build_field_at clause).
Proof. unfold build_field_at. repeat preserves_step. Qed.

Lemma preserves_walk_clause_at depth clause : preserves (walk_clause_at depth clause).
Proof.
  revert clause. induction depth as [|depth IH]; intros clause; [by intros w|].
  simpl. unfold build_grouper_at, build_compound_at.
  repeat preserves_step; apply preserves_build_field_at.
Qed.

Lemma preserves_join_at m : preserves m → preserves (join_at m).
Proof.
  intros Hm w. unfold join_at. specialize (Hm w).
  by destruct (m w) as [w' ps [[a|e]|]].
Qed.

Lemma preserves_render_at depth parsed : preserves (render_at depth parsed).
Proof. apply preserves_join_at, preserves_walk_clause_at. Qed.

(** The assignment of [IntNode.query], by contrast, changes the store. *)
Lemma setattr_integer_field_at_writes (q : ref) :
  ¬ preserves (setattr_integer_field_at q true).
Proof.
  intros Hpreserves.
  specialize (Hpreserves (World ∅ {[q := PyObject Term None None None None []]})).
  apply (f_equal (λ w, ob_integer_field <$> objects w !! q)) in Hpreserves.
  unfold setattr_integer_field_at, mbind, memgen_mbind, memgen_bind, load, store
    in Hpreserves.
  simpl in Hpreserves. rewrite lookup_singleton_eq in Hpreserves.
  simpl in Hpreserves. rewrite lookup_insert_eq in Hpreserves.
  discriminate Hpreserves.
Qed.

Lemma refines_ret {A} w (a : A) : refines w (mret a) (mret a).
Proof. reflexivity. Qed.

Lemma refines_raise {A} w e : refines w (@raise_at A e) (raise e).
Proof. reflexivity. Qed.

Lemma refines_yield w piece : refines w (yield_at piece) (yield piece).
Proof. reflexivity. Qed.

Lemma refines_getitem w cls : refines w (HANDLERS_getitem_at cls) (HANDLERS_getitem cls).
Proof.
  unfold refines, HANDLERS_getitem_at, HANDLERS_getitem.
  by destruct (handlers w !! cls).
Qed.

Lemma refines_bind {A B} w (om : memgen A) (m : gen A)
    (ok : A → memgen B) (k : A → gen B) :
  refines w om m →
  read_only m →
  (∀ a, result (m (handlers w)) = Return a → refines w (ok a) (k a)) →
  refines w (om ≫= ok) (m ≫= k).
Proof.
  unfold refines. intros Hm Hg Hk. specialize (Hg (handlers w)).
  unfold mbind, memgen_mbind, memgen_bind, gen_mbind, gen_bind. rewrite Hm. simpl.
  destruct (m (handlers w)) as [g ps [a|e]]; simpl in *; subst g; [|reflexivity].
  by rewrite (Hk a eq_refl).
Qed.

Lemma refines_read_bind {A B} w clause o (f : pyobject → A)
    (ok : A → memgen B) (m : gen B) :
  objects w !! clause = Some o →
  refines w (ok (f o)) m →
  refines w ((load clause ≫= λ o, mret (f o)) ≫= ok) m.
Proof.
  unfold refines. intros Ho Hk.
  unfold mbind, memgen_mbind, memgen_bind, load, mret, memgen_mret, memgen_ret.
  rewrite Ho. simpl. by rewrite Hk.
Qed.

Lemma refines_getattr_bind {A B} w clause o name (attribute : pyobject → option A)
    (ok : A → memgen B) (k : A → gen B) :
  objects w !! clause = Some o →
  (∀ a, attribute o = Some a → refines w (ok a) (k a)) →
  refines w (getattr_at name attribute clause ≫= ok) (getattr name (attribute o) ≫= k).
Proof.
  unfold refines. intros Ho Hk.
  unfold getattr_at, getattr, mbind, memgen_mbind, memgen_bind, gen_mbind, gen_bind, load.
  rewrite Ho. simpl. destruct (attribute o) as [a|]; simpl; [|reflexivity].
  by rewrite (Hk a eq_refl).
Qed.

Lemma refines_getattr_again {A B} w clause o name (attribute : pyobject → option A) a
    (ok : A → memgen B) (m : gen B) :
  objects w !! clause = Some o →
  attribute o = Some a →
  refines w (ok a) m →
  refines w (getattr_at name attribute clause ≫= ok) m.
Proof.
  unfold refines. intros Ho Ha Hk.
  unfold getattr_at, mbind, memgen_mbind, memgen_bind, load.
  rewrite Ho. simpl. rewrite Ha. simpl. by rewrite Hk.
Qed.

Lemma refines_for_in {A B} w (xs : list A) (ys : list B)
    (obody : A → memgen unit) (body : B → gen unit) :
  Forall2 (λ x y, refines w (obody x) (body y) ∧ read_only (body y)) xs ys →
  refines w (for_in_at xs obody) (for_in ys body).
Proof.
  induction 1 as [|x y xs ys [Hxy Hy] _ IH]; [reflexivity|].
  change (for_in_at (x :: xs) obody) with (obody x ≫= λ _, for_in_at xs obody).
  change (for_in (y :: ys) body) with (body y ≫= λ _, for_in ys body).
  apply refines_bind; [exact Hxy|exact Hy|]. intros _ _. exact IH.
Qed.

Ltac refines_step :=
  first [ apply refines_yield
        | apply refines_ret
        | apply refines_raise
        | apply refines_bind;
            [|solve [repeat read_only_step]|intros ? _] ].

Lemma build_field_at_refines w clause o children :
  objects w !! clause = Some o →
  refines w (build_field_at clause)
    (build_field (Clause (ob_class o) (ob_fieldname o) (ob_text o) (ob_words o)
                         (ob_integer_field o) children)).
Proof.
  intros Ho. unfold build_field_at, build_field. simpl.
  apply (refines_read_bind w clause o (λ o, default false (ob_integer_field o)));
    [exact Ho|].
  destruct (negb _).
  - refines_step; [refines_step|].
    apply (refines_getattr_bind w clause o); [exact Ho|]. intros fieldname_ _.
    do 2 (refines_step; [refines_step|]).
    apply (refines_read_bind w clause o (λ o, issubclass (ob_class o) Term));
      [exact Ho|].
    apply refines_bind; [| |intros ? _; refines_step].
    + destruct (issubclass (ob_class o) Term).
      * apply (refines_getattr_bind w clause o); [exact Ho|]. intros text_ _.
        refines_step.
      * apply (refines_read_bind w clause o (λ o, issubclass (ob_class o) Phrase));
          [exact Ho|].
        destruct (issubclass (ob_class o) Phrase); [|refines_step].
        apply (refines_getattr_bind w clause o); [exact Ho|]. intros words_ Hwords.
        apply refines_bind.
        -- apply refines_for_in. apply Forall2_same_length_lookup_2; [reflexivity|].
           intros i word word' Hw Hw'. assert (word' = word) as -> by congruence.
           split; [|repeat read_only_step].
           refines_step; [refines_step|]. refines_step.
        -- apply read_only_for_in, Forall_true. intros word. repeat read_only_step.
        -- intros _ _.
           apply (refines_getattr_again w clause o "words" ob_words words_);
             [exact Ho|exact Hwords|].
           destruct (last words_); refines_step.
    + destruct (issubclass (ob_class o) Term); [repeat read_only_step|].
      destruct (issubclass (ob_class o) Phrase); [|repeat read_only_step].
      repeat read_only_step.
      * apply Forall_true. intros word. repeat read_only_step.
      * destruct (last _); repeat read_only_step.
  - apply (refines_getattr_bind w clause o); [exact Ho|]. intros fieldname_ _.
    do 2 (refines_step; [refines_step|]).
    apply (refines_getattr_bind w clause o); [exact Ho|]. intros text_ _.
    refines_step.
Qed.

Lemma walk_clause_at_refines depth w clause c :
  tree_at depth (objects w) clause = Some c →
  refines w (walk_clause_at depth clause) (walk_clause c).
Proof.
  revert clause c. induction depth as [|depth IH]; intros clause c Htree;
    [discriminate Htree|].
  simpl in Htree. destruct (objects w !! clause) as [o|] eqn:Ho; [|discriminate Htree].
  destruct (mapM _ _) as [cs|] eqn:Hcs; [|discriminate Htree].
  injection Htree as <-. apply mapM_Some in Hcs.
  assert (Hchildren : Forall2 (λ r c, refines w (walk_clause_at depth r) (walk_clause c))
                              (ob_children o) cs).
  { eapply Forall2_impl; [exact Hcs|]. intros r c. apply IH. }
  clear IH Hcs. rewrite walk_clause_eq. simpl.
  apply (refines_read_bind w clause o ob_class); [exact Ho|].
  apply refines_bind; [apply refines_getitem|apply read_only_getitem|].
  intros fn _. destruct fn; simpl.
  - by apply build_field_at_refines.
  - unfold build_grouper_at, build_grouper. simpl.
    refines_step; [refines_step|].
    apply (refines_read_bind w clause o ob_class); [exact Ho|].
    refines_step; [refines_step|].
    apply (refines_read_bind w clause o ob_children); [exact Ho|].
    apply refines_bind; [| |intros ? _; refines_step].
    + apply refines_for_in. eapply Forall2_impl; [exact Hchildren|].
      intros r c Hrc. split.
      * refines_step; [refines_step|]. exact Hrc.
      * apply read_only_bind; [apply read_only_yield|]. intros _.
        apply read_only_walk_clause.
    + apply read_only_for_in, Forall_true. intros child.
      apply read_only_bind; [apply read_only_yield|]. intros _.
      apply read_only_walk_clause.
  - unfold build_compound_at, build_compound. simpl.
    refines_step; [refines_step|].
    apply (refines_read_bind w clause o ob_children); [exact Ho|].
    destruct Hchildren as [|use cuse ? ? Huse Hchildren]; [refines_step|].
    destruct Hchildren as [|avoid cavoid ? ? Havoid Hchildren]; [refines_step|].
    destruct Hchildren as [|? ? ? ? _ _]; [|refines_step].
    apply refines_bind; [exact Huse|apply read_only_walk_clause|]. intros _ _.
    refines_step; [refines_step|].
    apply refines_bind; [exact Havoid|apply read_only_walk_clause|]. intros _ _.
    refines_step.
Qed.

Lemma render_at_refines depth w parsed c :
  tree_at depth (objects w) parsed = Some c →
  refines w (render_at depth parsed) (render c).
Proof.
  intros Htree. apply walk_clause_at_refines in Htree.
  unfold refines, render_at, render, join_at, join in *. rewrite Htree. simpl.
  by destruct (result (walk_clause c (handlers w))).
Qed.

(** C9.  Rendering a tree held in memory changes nothing: the dictionary
    and every object, those of the tree included, are after the rendering
    what they were before it, also when the rendering raises.  A second
    rendering of the same reference therefore gives the same run, as does a
    rendering made after that of another tree; and when the reference
    stands for the tree [c], the rendering ends and its outcome, string or
    exception, is the one that [c] and the dictionary determine, whatever
    else the store holds. *)
Theorem rendering_is_pure (depth : nat) (parsed other : ref) (w : world) :
  let first := render_at depth parsed w in
  let second := render_at depth parsed (after first) in
  handlers (after first) = handlers w
  ∧ objects (after first) = objects w
  ∧ tree_at depth (objects (after first)) parsed = tree_at depth (objects w) parsed
  ∧ second = first
  ∧ render_at depth parsed (after (render_at depth other w)) = first
  ∧ ∀ c, tree_at depth (objects w) parsed = Some c →
         first = MemRun w [] (Some (result (render c (handlers w)))).
Proof.
  intros first second. unfold second, first.
  rewrite (preserves_render_at depth parsed w), (preserves_render_at depth other w).
  repeat split. intros c Htree.
  rewrite (render_at_refines depth w parsed c Htree).
  unfold render, join. by destruct (result (walk_clause c (handlers w))).
Qed.

Lemma rendering_is_pure_witness :
  let w := World HANDLERS
             (<[0%nat := PyObject And None None None None [1%nat; 2%nat]]>
              (<[1%nat := PyObject Term (Some "text") (Some "foo") None None []]>
               (<[2%nat := PyObject Term (Some "count") (Some "7") None (Some true) []]>
                ∅))) in
  render_at 2 0%nat w = MemRun w [] (Some (Return "(and (field text 'foo') count:7)")).
Proof.
  intros w.
  destruct (rendering_is_pure 2 0%nat 1%nat w) as (_ & _ & _ & _ & _ & Htree).
  rewrite (Htree (new_And [new_Term "text" "foo";
                           set_integer_field true (new_Term "count" "7")])).
  - vm_compute. reflexivity.
  - vm_compute. reflexivity.
Defined.

(** ** Registration *)

Lemma handler_loop_duplicate (classes : list pyclass) (fn : handler_fn) cls H :
  cls ∈ classes →
  is_Some (H !! cls) →
  ∃ H',
    for_in classes (λ cls,
      taken ← HANDLERS_contains cls;
      if (taken : bool) then raise (ValueError "%s already has a handler")
      else HANDLERS_setitem cls fn) H
    = Run H' [] (Raise (ValueError "%s already has a handler"))
    ∧ ∀ k v, H !! k = Some v → H' !! k = Some v.
Proof.
  revert H. induction classes as [|c0 classes IH]; intros H Hin Hsome;
    [by apply elem_of_nil in Hin|].
  change (for_in (c0 :: classes) ?b) with (b c0 ≫= λ _, for_in classes b).
  destruct (H !! c0) as [v0|] eqn:E0.
  - exists H. split; [|done].
    erewrite bind_Raise; [done|].
    rewrite (bind_Return _ _ H H [] true); [done|].
    unfold HANDLERS_contains. by rewrite bool_decide_eq_true_2 by (by rewrite E0).
  - apply elem_of_cons in Hin as [->|Hin]; [rewrite E0 in Hsome; by destruct Hsome|].
    assert (cls ≠ c0) as Hne by (intros ->; rewrite E0 in Hsome; by destruct Hsome).
    destruct (IH (<[c0 := fn]> H) Hin) as (H' & Eloop & Hkeep).
    { by rewrite lookup_insert_ne. }
    exists H'. split.
    + rewrite (bind_Return _ _ H (<[c0 := fn]> H) [] tt); [by rewrite Eloop|].
      rewrite (bind_Return _ _ H H [] false); [done|].
      unfold HANDLERS_contains.
      by rewrite bool_decide_eq_false_2 by (rewrite E0; by intros [? ?]).
    + intros k v Hk. apply Hkeep. rewrite lookup_insert_ne; [done|].
      intros ->. congruence.
Qed.

(** C8.  Registering a handler for classes one of which already has an
    entry raises [ValueError] out of the decorator; whatever was to run
    after the registration does not run, and the entries that were there
    keep their handlers. *)
Theorem duplicate_registration_raises
    (classes : list pyclass) (fn : handler_fn) (cls : pyclass)
    (H : gmap pyclass handler_fn) :
  cls ∈ classes →
  is_Some (H !! cls) →
  ∃ H',
    handler classes fn H = Run H' [] (Raise (ValueError "%s already has a handler"))
    ∧ (∀ k v, H !! k = Some v → H' !! k = Some v)
    ∧ ∀ A (translation : gen A),
        (handler classes fn ;; translation) H
        = Run H' [] (Raise (ValueError "%s already has a handler")).
Proof.
  intros Hin Hsome.
  destruct (handler_loop_duplicate classes fn cls H Hin Hsome) as (H' & Eloop & Hkeep).
  assert (E : handler classes fn H
              = Run H' [] (Raise (ValueError "%s already has a handler"))).
  { unfold handler. by erewrite bind_Raise. }
  exists H'. split; [done|]. split; [done|].
  intros A translation. by erewrite bind_Raise.
Qed.

Lemma duplicate_registration_raises_witness :
  ∃ H',
    handler [Prefix; Term] fn_build_grouper HANDLERS
    = Run H' [] (Raise (ValueError "%s already has a handler"))
    ∧ (∀ k v, HANDLERS !! k = Some v → H' !! k = Some v)
    ∧ ∀ A (translation : gen A),
        (handler [Prefix; Term] fn_build_grouper ;; translation) HANDLERS
        = Run H' [] (Raise (ValueError "%s already has a handler")).
Proof.
  apply (duplicate_registration_raises [Prefix; Term] fn_build_grouper Term HANDLERS).
  - set_solver.
  - by exists fn_build_field.
Defined.

(** ** Coercion *)

(** [str] gives the canonical literal: reading it back gives the integer. *)
Lemma decimal_literal_py_str (n : Z) : decimal_literal (py_str n) = Some n.
Proof.
  unfold decimal_literal, py_str. rewrite NilZero.isi.
  - simpl. by rewrite DecimalZ.of_to.
  - destruct n; simpl; [discriminate| |discriminate].
    intros [= E]. by apply Unsigned.to_uint_nonnil in E.
  - destruct n; simpl; [discriminate|discriminate|].
    intros [= E]. by apply Unsigned.to_uint_nonnil in E.
Qed.

Lemma plugin_mapping_fold {R} (modify_node : string → SyntaxNode → R)
    (fieldnames : list string) (name : string) (m : gmap string (SyntaxNode → R)) :
  name ∈ fieldnames ∨ m !! name = Some (modify_node_fn name modify_node) →
  foldl (λ mapping name, <[name := modify_node_fn name modify_node]> mapping)
        m fieldnames !! name
  = Some (modify_node_fn name modify_node).
Proof.
  revert m. induction fieldnames as [|x l IH]; intros m Hm; simpl.
  - destruct Hm as [Hin|Hm]; [by apply elem_of_nil in Hin|done].
  - apply IH. destruct (decide (x = name)) as [->|Hne].
    + right. apply lookup_insert_eq.
    + destruct Hm as [Hin|Hm].
      * apply elem_of_cons in Hin as [->|Hin]; [done|by left].
      * right. by rewrite lookup_insert_ne.
Qed.

(** A registered field name is bound to the rule closed over that name. *)
Lemma plugin_mapping_lookup {R} (modify_node : string → SyntaxNode → R)
    (fieldnames : list string) (name : string) :
  name ∈ fieldnames →
  plugin_mapping modify_node fieldnames !! name = Some (modify_node_fn name modify_node).
Proof. intros Hin. apply plugin_mapping_fold. by left. Qed.

(** C4.  Under a field registered with [IntNodePlugin], a node with text
    that [int] accepts is replaced by an [IntNode] with that field name and
    the text [str(int(text))], whose query carries [integer_field = True];
    text that [int] rejects gives [None], the drop outcome; in both cases
    the rule returns and no exception leaves it. *)
Theorem int_rule_coerces_or_drops
    (int_of_str : string → option Z) (fieldnames : list string) (name : string)
    (node : SyntaxNode) :
  name ∈ fieldnames →
  has_text node = true →
  ∃ rule,
    IntNodePlugin int_of_str fieldnames !! name = Some rule
    ∧ (∀ n, int_of_str (node_text node) = Some n →
         rule node = Return (Some (IntNode n (py_str n) (Some name)))
         ∧ ∀ parser_fieldname,
             let q := IntNode_query parser_fieldname (IntNode n (py_str n) (Some name)) in
             integer_field q = Some true
             ∧ text q = Some (py_str n)
             ∧ (name ≠ EmptyString → fieldname q = Some name))
    ∧ (int_of_str (node_text node) = None → rule node = Return None)
    ∧ ∃ r, rule node = Return r.
Proof.
  intros Hin Htext. eexists. split; [by apply plugin_mapping_lookup|].
  unfold modify_node_fn, IntNodePlugin_modify_node. rewrite Htext.
  unfold IntNode_init, py_int.
  destruct (int_of_str (node_text node)) as [n|]; simpl.
  - split; [|split; [done|eauto]].
    intros ? [= <-]. split; [done|]. intros parser_fieldname. simpl.
    split; [done|]. split; [done|]. intros Hname.
    unfold WordNode_query. simpl. by rewrite decide_False.
  - split; [done|]. split; [done|eauto].
Qed.

Lemma int_rule_coerces_or_drops_witness :
  ∃ rule,
    IntNodePlugin decimal_literal default_int_fields !! "count" = Some rule
    ∧ rule (WordNode "-012" None) = Return (Some (IntNode (-12) "-12" (Some "count")))
    ∧ ∃ r, rule (WordNode "-012" None) = Return r.
Proof.
  destruct (int_rule_coerces_or_drops decimal_literal default_int_fields "count"
              (WordNode "-012" None))
    as (rule & Hrule & Hint & _ & Hret).
  - unfold default_int_fields. repeat constructor.
  - reflexivity.
  - exists rule. split; [exact Hrule|]. split; [|exact Hret].
    exact (proj1 (Hint (-12)%Z eq_refl)).
Defined.

(** C5.  Under a field registered with [YesNoPlugin], a node with text is
    always replaced, never dropped: by the [IntNode] of 1 when its text is
    exactly [yes], [y] or [1], and of 0 for any other text; the leaf its
    query builds renders as [<field>:1] or [<field>:0], the field being the
    registered name (whoosh falls back to the parser's field only for an
    empty name). *)
Theorem yesno_rule_is_total
    (int_of_str : string → option Z) (fieldnames : list string) (name : string)
    (node : SyntaxNode) (parser_fieldname : string) :
  name ∈ fieldnames →
  has_text node = true →
  ∃ rule (v : Z) (field : string),
    YesNoPlugin int_of_str fieldnames !! name = Some rule
    ∧ rule node = Return (Some (IntNode v (py_str v) (Some name)))
    ∧ (node_text node ∈ ["yes"; "y"; "1"] → v = 1%Z)
    ∧ (node_text node ∉ ["yes"; "y"; "1"] → v = 0%Z)
    ∧ (name ≠ EmptyString → field = name)
    ∧ (render (IntNode_query parser_fieldname (IntNode v (py_str v) (Some name))) HANDLERS
         = Run HANDLERS [] (Return (field +:+ ":1"))
       ∨ render (IntNode_query parser_fieldname (IntNode v (py_str v) (Some name))) HANDLERS
         = Run HANDLERS [] (Return (field +:+ ":0"))).
Proof.
  intros Hin Htext.
  exists (modify_node_fn name (YesNoPlugin_modify_node int_of_str)).
  exists (if bool_decide (node_text node ∈ ["yes"; "y"; "1"]) then 1%Z else 0%Z).
  exists (if decide (name = EmptyString) then parser_fieldname else name).
  split; [by apply plugin_mapping_lookup|].
  unfold modify_node_fn, YesNoPlugin_modify_node. rewrite Htext.
  assert (Hrender : ∀ n t,
    render (IntNode_query parser_fieldname (IntNode n t (Some name))) HANDLERS
    = Run HANDLERS []
        (Return ((if decide (name = EmptyString) then parser_fieldname else name)
                 +:+ ":" +:+ t))).
  { intros n t. unfold IntNode_query, WordNode_query. simpl.
    destruct (decide (name = EmptyString)); reflexivity. }
  assert (Hfield : name ≠ EmptyString →
                   (if decide (name = EmptyString) then parser_fieldname else name) = name).
  { intros Hname. by rewrite decide_False. }
  case_bool_decide as Hyes.
  - split; [done|]. split; [done|]. split; [done|]. split; [exact Hfield|].
    left. apply (Hrender 1%Z "1").
  - split; [done|]. split; [done|]. split; [done|]. split; [exact Hfield|].
    right. apply (Hrender 0%Z "0").
Qed.

Lemma yesno_rule_is_total_witness :
  ∃ rule,
    YesNoPlugin decimal_literal default_yesno_fields !! "is_active" = Some rule
    ∧ rule (WordNode "Yes" None) = Return (Some (IntNode 0 "0" (Some "is_active")))
    ∧ (render (IntNode_query "text" (IntNode 0 "0" (Some "is_active"))) HANDLERS
         = Run HANDLERS [] (Return "is_active:1")
       ∨ render (IntNode_query "text" (IntNode 0 "0" (Some "is_active"))) HANDLERS
         = Run HANDLERS [] (Return "is_active:0")).
Proof.
  destruct (yesno_rule_is_total decimal_literal default_yesno_fields "is_active"
              (WordNode "Yes" None) "text")
    as (rule & v & field & Hrule & Hnode & _ & Hno & Hfield & Hrender).
  - unfold default_yesno_fields. repeat constructor.
  - reflexivity.
  - assert (v = 0%Z) as ->.
    { apply Hno. intros Hin.
      repeat (apply elem_of_cons in Hin as [Hin|Hin]; [discriminate|]).
      inversion Hin. }
    assert (field = "is_active") as -> by (apply Hfield; discriminate).
    exists rule. split; [exact Hrule|]. split; [exact Hnode|exact Hrender].
Defined.

(** ** The self-test *)

(** A table with an entry that is not a pair cannot be run to its end. *)
Lemma run_tests_loop_short_entry (parse : string → outcome clause)
    (tests : list (list string)) (entry : list string) H :
  entry ∈ tests →
  List.length entry ≠ 2 →
  ∃ printed e, run_tests_loop parse tests H = (printed, Raise e).
Proof.
  revert H. induction tests as [|entry0 tests IH]; intros H Hin Hlen;
    [by apply elem_of_nil in Hin|].
  destruct entry0 as [|input_ [|output [|extra rest]]]; simpl; eauto.
  apply elem_of_cons in Hin as [->|Hin]; [done|].
  destruct (result _); [|eauto]. case_bool_decide; [|eauto].
  destruct (IH (globals (convert parse input_ H)) Hin Hlen) as (printed & e & ->).
  eauto.
Qed.

(** C7.  [run_tests] goes through [TESTS] in order.  For the entry it has
    reached (all entries before it being pairs that passed) and whose input
    converts, it has printed the lines of the entries before, prints the
    input and the expected output, and then either prints [yup!] and goes
    on with the rest of the table, when the conversion equals the expected
    output, or prints the actual output after [nope:] and raises
    [AssertionError], which ends the run. *)
Theorem run_tests_checks_each_entry
    (parser_parse : string → outcome clause) (H : gmap pyclass handler_fn)
    (passed rest : list (list string)) (input_ output actual : string) :
  TESTS = passed ++ [input_; output] :: rest →
  Forall (λ entry, ∃ i o, entry = [i; o]
                          ∧ result (convert parser_parse i H) = Return o) passed →
  result (convert parser_parse input_ H) = Return actual →
  let before :=
    flat_map (λ entry,
                match entry with
                | [i; o] => [print_items [i; "becomes"; o; "? ... "];
                             print_items [tab +:+ "yup!"]]
                | _ => []
                end) passed in
  let line := print_items [input_; "becomes"; output; "? ... "] in
  (actual = output →
   run_tests parser_parse H
   = (before ++ line :: print_items [tab +:+ "yup!"]
               :: fst (run_tests_loop parser_parse rest H),
      snd (run_tests_loop parser_parse rest H)))
  ∧ (actual ≠ output →
     run_tests parser_parse H
     = (before ++ [line; print_items [tab +:+ "nope:"; actual]],
        Raise AssertionError)).
Proof.
  intros Etests Hpassed Hactual before line. unfold run_tests. rewrite Etests.
  unfold before. clear Etests before.
  assert (Hstate : ∀ query, globals (convert parser_parse query H) = H).
  { intros query. unfold convert.
    apply read_only_bind; [intros ?; reflexivity|]. intros parsed.
    apply read_only_render. }
  induction Hpassed as [|entry passed (i & o & -> & Eo) _ [IHyes IHno]].
  - simpl. rewrite Hactual, Hstate. split.
    + intros ->. rewrite bool_decide_eq_true_2 by reflexivity.
      by destruct (run_tests_loop parser_parse rest H).
    + intros Hne. by rewrite bool_decide_eq_false_2.
  - simpl. rewrite Eo, Hstate. rewrite bool_decide_eq_true_2 by reflexivity. split.
    + intros Heq. by rewrite (IHyes Heq).
    + intros Hne. by rewrite (IHno Hne).
Qed.

Lemma run_tests_checks_each_entry_witness :
  run_tests sample_parse HANDLERS
  = (["foo becomes (field text 'foo') ? ... "; tab +:+ "yup!";
      "foo:bar becomes (field foo 'bar') ? ... "; tab +:+ "yup!";
      quoted "foo bar baz" +:+ " becomes (field text 'foo bar baz') ? ... ";
      tab +:+ "nope: (and (field text '" +:+ dquote
          +:+ "foo') (field text 'bar') (field text 'baz" +:+ dquote +:+ "'))"],
     Raise AssertionError).
Proof.
  destruct (run_tests_checks_each_entry sample_parse HANDLERS
              [["foo"; "(field text 'foo')"]; ["foo:bar"; "(field foo 'bar')"]]
              (skipn 3 TESTS) (quoted "foo bar baz") "(field text 'foo bar baz')"
              ("(and (field text '" +:+ dquote
               +:+ "foo') (field text 'bar') (field text 'baz" +:+ dquote +:+ "'))"))
    as [_ Hnope].
  - reflexivity.
  - constructor; [|constructor; [|constructor]].
    + exists "foo", "(field text 'foo')". split; [reflexivity|vm_compute; reflexivity].
    + exists "foo:bar", "(field foo 'bar')". split; [reflexivity|vm_compute; reflexivity].
  - vm_compute. reflexivity.
  - rewrite Hnope; [reflexivity|]. vm_compute. discriminate.
Defined.

(** * Further properties of the code *)

(** ** Registration that succeeds, and registration that fails half-way *)

Lemma foldl_insert_lookup (fn : handler_fn) (classes : list pyclass)
    (H : gmap pyclass handler_fn) (c : pyclass) :
  foldl (λ m cls, <[cls := fn]> m) H classes !! c
  = if bool_decide (c ∈ classes) then Some fn else H !! c.
Proof.
  revert H. induction classes as [|c0 classes IH]; intros H; [done|].
  - simpl foldl. rewrite IH. destruct (decide (c = c0)) as [->|Hne].
    + rewrite (bool_decide_eq_true_2 (c0 ∈ c0 :: classes)) by apply list_elem_of_here.
      case_bool_decide; [done|apply lookup_insert_eq].
    + rewrite lookup_insert_ne by done.
      replace (bool_decide (c ∈ c0 :: classes)) with (bool_decide (c ∈ classes)); [done|].
      apply bool_decide_ext. rewrite elem_of_cons. split; [by right|].
      by intros [?|?].
Qed.

(** The loop of [handler] over classes that are new and pairwise distinct
    inserts them all and goes on with the rest of the tuple. *)
Lemma handler_loop_fresh (fresh rest : list pyclass) (fn : handler_fn)
    (H : gmap pyclass handler_fn) :
  NoDup fresh →
  (∀ c, c ∈ fresh → H !! c = None) →
  let body := λ cls,
    taken ← HANDLERS_contains cls;
    if (taken : bool) then raise (ValueError "%s already has a handler")
    else HANDLERS_setitem cls fn in
  for_in (fresh ++ rest) body H
  = for_in rest body (foldl (λ m cls, <[cls := fn]> m) H fresh).
Proof.
  intros Hnodup Hnew body. revert H Hnew.
  induction Hnodup as [|c0 fresh Hc0 _ IH]; intros H Hnew; [done|].
  simpl app. simpl foldl.
  change (for_in (c0 :: ?l) ?b) with (b c0 ≫= λ _, for_in l b).
  rewrite (bind_Return _ _ H (<[c0 := fn]> H) [] tt).
  - rewrite IH.
    + simpl. apply run_eta.
    + intros c Hc. rewrite lookup_insert_ne; [apply Hnew; by apply list_elem_of_further|].
      intros ->. done.
  - unfold body. rewrite (bind_Return _ _ H H [] false); [done|].
    unfold HANDLERS_contains.
    rewrite bool_decide_eq_false_2; [done|].
    rewrite (Hnew c0) by apply list_elem_of_here. by intros [? ?].
Qed.

(** X1.  Registering classes that are pairwise distinct and have no entry
    yet returns the function and leaves a dictionary in which exactly those
    classes are bound to it, every other entry being as before. *)
Theorem handler_registers_new_classes
    (classes : list pyclass) (fn : handler_fn) (H : gmap pyclass handler_fn) :
  NoDup classes →
  (∀ c, c ∈ classes → H !! c = None) →
  ∃ H',
    handler classes fn H = Run H' [] (Return fn)
    ∧ ∀ c, H' !! c = if bool_decide (c ∈ classes) then Some fn else H !! c.
Proof.
  intros Hnodup Hnew.
  exists (foldl (λ m cls, <[cls := fn]> m) H classes).
  split; [|intros c; apply foldl_insert_lookup].
  unfold handler.
  rewrite (bind_Return _ _ H (foldl (λ m cls, <[cls := fn]> m) H classes) [] tt);
    [done|].
  rewrite <- (app_nil_r classes) at 1.
  by rewrite (handler_loop_fresh classes [] fn H Hnodup Hnew).
Qed.

Lemma handler_registers_new_classes_witness :
  ∃ H',
    handler [Prefix; Every] fn_build_field HANDLERS = Run H' [] (Return fn_build_field)
    ∧ H' !! Every = Some fn_build_field
    ∧ H' !! And = Some fn_build_grouper.
Proof.
  destruct (handler_registers_new_classes [Prefix; Every] fn_build_field HANDLERS)
    as (H' & Hrun & Hlookup).
  - repeat constructor; [|apply not_elem_of_nil].
    intros [[=]|Hin]%elem_of_cons. inversion Hin.
  - intros c Hc.
    repeat (apply elem_of_cons in Hc as [->|Hc]; [reflexivity|]). inversion Hc.
  - exists H'. split; [exact Hrun|]. rewrite !Hlookup. split; reflexivity.
Defined.

(** X2.  A registration that meets a class with an entry (or a class named
    twice in the same tuple) raises, but is not rolled back: the classes
    named before it stay bound to the function, and the entries that were
    there are untouched. *)
Theorem handler_failure_keeps_earlier_classes
    (fresh rest : list pyclass) (taken : pyclass) (fn : handler_fn)
    (H : gmap pyclass handler_fn) :
  NoDup fresh →
  (∀ c, c ∈ fresh → H !! c = None) →
  is_Some (H !! taken) ∨ taken ∈ fresh →
  ∃ H',
    handler (fresh ++ taken :: rest) fn H
    = Run H' [] (Raise (ValueError "%s already has a handler"))
    ∧ ∀ c, H' !! c = if bool_decide (c ∈ fresh) then Some fn else H !! c.
Proof.
  intros Hnodup Hnew Htaken.
  exists (foldl (λ m cls, <[cls := fn]> m) H fresh).
  split; [|intros c; apply foldl_insert_lookup].
  unfold handler. erewrite bind_Raise; [done|].
  rewrite (handler_loop_fresh fresh (taken :: rest) fn H Hnodup Hnew).
  change (for_in (taken :: ?l) ?b) with (b taken ≫= λ _, for_in l b).
  erewrite bind_Raise; [done|].
  rewrite (bind_Return _ _ _ (foldl (λ m cls, <[cls := fn]> m) H fresh) [] true);
    [done|].
  unfold HANDLERS_contains. rewrite bool_decide_eq_true_2; [done|].
  rewrite foldl_insert_lookup. case_bool_decide as Hin; [by eexists|].
  by destruct Htaken.
Qed.

Lemma handler_failure_keeps_earlier_classes_witness :
  ∃ H',
    handler [Prefix; Term; Every] fn_build_field HANDLERS
    = Run H' [] (Raise (ValueError "%s already has a handler"))
    ∧ H' !! Prefix = Some fn_build_field
    ∧ H' !! Every = None.
Proof.
  destruct (handler_failure_keeps_earlier_classes [Prefix] [Every] Term fn_build_field
              HANDLERS)
    as (H' & Hrun & Hlookup).
  - repeat constructor. apply not_elem_of_nil.
  - intros c Hc. apply elem_of_cons in Hc as [->|Hc]; [reflexivity|]. inversion Hc.
  - left. by exists fn_build_field.
  - exists H'. split; [exact Hrun|]. rewrite !Hlookup. split; reflexivity.
Defined.

(** ** Which trees render *)

Lemma render_phrase_words (c : clause) (f : string) (ws : list string) H :
  H !! __class__ c = Some fn_build_field →
  __class__ c = Phrase →
  fieldname c = Some f →
  words c = Some ws →
  ws ≠ [] →
  default false (integer_field c) = false →
  render c H
  = Run H [] (Return ("(field " +:+ f +:+ " '" +:+ String.concat " " ws +:+ "')")).
Proof.
  intros Hfn Ec Hf Hws Hne Hi.
  destruct (last ws) as [w|] eqn:Hl; [|apply last_None in Hl; congruence].
  rewrite <- (words_pieces_concat ws w Hl).
  set (ps := flat_map (λ word, [word; " "]) (removelast ws) ++ [w]).
  replace ("(field " +:+ f +:+ " '" +:+ String.concat EmptyString ps +:+ "')")
    with (String.concat EmptyString ("(field " :: f :: " '" :: ps ++ ["')"]))
    by (by rewrite !concat_cons, concat_app).
  apply render_of_walk_Return. rewrite (walk_clause_registered c _ _ Hfn).
  simpl. unfold build_field. rewrite Hi, Hf, Ec, Hws.
  change (negb false) with true. cbv iota.
  change (issubclass Phrase Term) with false.
  change (issubclass Phrase Phrase) with true. cbv iota.
  rewrite bind_yield, (bind_Return _ _ _ H [] f) by reflexivity.
  rewrite !bind_yield.
  rewrite (bind_Return _ _ _ H ps tt); [reflexivity|].
  rewrite (bind_Return _ _ _ H [] ws) by reflexivity.
  rewrite (bind_Return _ _ _ _ _ tt (words_loop_run _ _)).
  by rewrite Hl.
Qed.

(** The children of a clause either all render, or there is a first one
    that raises. *)
Lemma children_render_split H (cs : list clause) :
  (∃ ss, Forall2 (λ child s, render child H = Run H [] (Return s)) cs ss)
  ∨ (∃ rendered ss bad rest e,
       cs = rendered ++ bad :: rest
       ∧ Forall2 (λ child s, render child H = Run H [] (Return s)) rendered ss
       ∧ render bad H = Run H [] (Raise e)).
Proof.
  induction cs as [|c cs IH]; [left; by exists []|].
  destruct (render_cases c H) as [[s Ec]|[e Ec]].
  - destruct IH as [[ss Hss]|(rendered & ss & bad & rest & e & -> & Hss & Ebad)].
    + left. exists (s :: ss). by constructor.
    + right. exists (c :: rendered), (s :: ss), bad, rest, e.
      split; [done|]. split; [by constructor|done].
  - right. exists [], [], c, cs, e. split; [done|]. split; [constructor|done].
Qed.

Lemma renderable_renders (c : clause) :
  renderable c = true → ∃ s, render c HANDLERS = Run HANDLERS [] (Return s).
Proof.
  induction c as [c IH] using clause_children_ind.
  destruct c as [cls f t w i cs]. simpl in IH. cbn [renderable].
  destruct (decide (cls = Term)) as [->|HT].
  { intros [Hf Ht]%andb_prop.
    apply bool_decide_eq_true_1 in Hf as [f' ->].
    apply bool_decide_eq_true_1 in Ht as [t' ->].
    destruct i as [[|]|]; eexists; reflexivity. }
  destruct (decide (cls = Phrase)) as [->|HP].
  { intros [Hf Hv]%andb_prop.
    apply bool_decide_eq_true_1 in Hf as [f' ->].
    destruct (default false i) eqn:Hi.
    - apply bool_decide_eq_true_1 in Hv as [t' ->].
      destruct i as [[|]|]; try discriminate. eexists; reflexivity.
    - destruct w as [[|w0 ws]|]; try discriminate.
      eexists. by apply (render_phrase_words _ f' (w0 :: ws)). }
  destruct (decide (cls ∈ [And; Or; Not])) as [Hg|HG].
  { intros Hall. rewrite forallb_forall in Hall.
    assert (Hss : ∃ ss, Forall2 (λ child s,
              render child HANDLERS = Run HANDLERS [] (Return s)) cs ss).
    { clear Hg. induction cs as [|x cs IHcs]; [by exists []|].
      apply Forall_cons in IH as [Hx IH].
      destruct Hx as [s Hs]; [apply Hall; by left|].
      destruct (IHcs IH) as [ss Hss]; [intros y Hy; apply Hall; by right|].
      exists (s :: ss). by constructor. }
    destruct Hss as [ss Hss]. eexists.
    apply (render_grouper_ok HANDLERS _ ss); [|exact Hss]. simpl.
    repeat (apply elem_of_cons in Hg as [->|Hg]; [reflexivity|]). inversion Hg. }
  destruct (decide (cls = AndNot)) as [->|HA]; [|discriminate].
  destruct cs as [|use [|avoid [|extra rest]]]; try discriminate.
  intros [Huse Havoid]%andb_prop.
  apply Forall_cons in IH as [IHuse IH]. apply Forall_cons in IH as [IHavoid _].
  destruct (IHuse Huse) as [k Ek]. destruct (IHavoid Havoid) as [e Ee].
  eexists. by apply (render_compound_ok HANDLERS _ use avoid k e).
Qed.

Lemma render_Return_not_Raise {A} (r : run A) H a e :
  r = Run H [] (Return a) → r = Run H [] (Raise e) → False.
Proof. intros -> [=]. Qed.

(** What [build_field] must have found when it ran to its end. *)
Lemma build_field_Return_inv cls f t w i cs H ps :
  build_field (Clause cls f t w i cs) H = Run H ps (Return tt) →
  is_Some f
  ∧ (if default false i then is_Some t
     else if issubclass cls Term then is_Some t
     else if issubclass cls Phrase then ∃ w0 ws, w = Some (w0 :: ws)
     else True).
Proof.
  unfold build_field. cbn [integer_field fieldname text words __class__].
  intros E. destruct f as [f|].
  2:{ destruct (default false i); simpl in E; discriminate. }
  split; [by eexists|].
  destruct (default false i); simpl negb in *; cbv iota in *.
  - destruct t as [t|]; [by eexists|]. simpl in E. discriminate.
  - destruct (issubclass cls Term).
    + destruct t as [t|]; [by eexists|]. simpl in E. discriminate.
    + destruct (issubclass cls Phrase); [|done].
      destruct w as [[|w0 ws]|];
        [simpl in E; discriminate|by eauto|simpl in E; discriminate].
Qed.

Lemma run_Raise_not_Return {A} g ps e g' ps' (a : A) :
  Run g ps (Raise e) = Run g' ps' (Return a) → False.
Proof. intros [=]. Qed.

Lemma build_compound_Return_inv (c : clause) H ps :
  build_compound walk_clause c H = Run H ps (Return tt) →
  ∃ use avoid, children c = [use; avoid].
Proof.
  unfold build_compound. rewrite bind_yield.
  destruct (children c) as [|use [|avoid [|extra rest]]]; try (intros [=]); eauto.
Qed.

Lemma rendered_is_renderable (c : clause) (s : string) :
  render c HANDLERS = Run HANDLERS [] (Return s) → renderable c = true.
Proof.
  revert s. induction c as [c IH] using clause_children_ind. intros s Hr.
  assert (Hchild : ∀ fn child, HANDLERS !! __class__ c = Some fn →
            fn ≠ fn_build_field → child ∈ children c → renderable child = true).
  { intros fn child Hfn Hrec Hin.
    destruct (render_cases child HANDLERS) as [[s' Ec]|[e Ec]].
    - rewrite Forall_forall in IH. by apply (IH child Hin s').
    - destruct (render_child_raise HANDLERS c child fn e Hfn Hrec Hin Ec) as [e' Ee'].
      by destruct (render_Return_not_Raise _ _ _ _ Hr Ee'). }
  apply render_Return_inv in Hr as (ps & Ewalk & _).
  destruct c as [cls f t w i cs]. simpl in Hchild. cbn [renderable].
  destruct (decide (cls = Term)) as [->|HT].
  { rewrite (walk_clause_registered (Clause Term f t w i cs) HANDLERS
               fn_build_field eq_refl) in Ewalk.
    apply build_field_Return_inv in Ewalk as [Hf Hv].
    change (issubclass Term Term) with true in Hv.
    apply andb_true_intro. split; [by apply bool_decide_eq_true_2|].
    apply bool_decide_eq_true_2. by destruct (default false i). }
  destruct (decide (cls = Phrase)) as [->|HP].
  { rewrite (walk_clause_registered (Clause Phrase f t w i cs) HANDLERS
               fn_build_field eq_refl) in Ewalk.
    apply build_field_Return_inv in Ewalk as [Hf Hv].
    change (issubclass Phrase Term) with false in Hv.
    change (issubclass Phrase Phrase) with true in Hv.
    apply andb_true_intro. split; [by apply bool_decide_eq_true_2|].
    destruct (default false i); [by apply bool_decide_eq_true_2|].
    by destruct Hv as (w0 & ws & ->). }
  destruct (decide (cls ∈ [And; Or; Not])) as [Hg|HG].
  { apply forallb_forall. intros child Hin%list_elem_of_In.
    apply (Hchild fn_build_grouper); [|done|done].
    repeat (apply elem_of_cons in Hg as [->|Hg]; [reflexivity|]). inversion Hg. }
  destruct (decide (cls = AndNot)) as [->|HA].
  { rewrite (walk_clause_registered (Clause AndNot f t w i cs) HANDLERS
               fn_build_compound eq_refl) in Ewalk.
    apply build_compound_Return_inv in Ewalk as (use & avoid & Ecs).
    simpl in Ecs. subst cs.
    apply andb_true_intro. split.
    - apply (Hchild fn_build_compound); [reflexivity|done|apply list_elem_of_here].
    - apply (Hchild fn_build_compound); [reflexivity|done|].
      apply list_elem_of_further, list_elem_of_here. }
  exfalso. rewrite walk_clause_unregistered in Ewalk;
    [exact (run_Raise_not_Return _ _ _ _ _ _ Ewalk)|].
  apply HANDLERS_None. simpl.
  intros Hin.
  apply elem_of_cons in Hin as [->|Hin]; [exact (HT eq_refl)|].
  apply elem_of_cons in Hin as [->|Hin]; [exact (HP eq_refl)|].
  apply elem_of_cons in Hin as [->|Hin]; [apply HG, list_elem_of_here|].
  apply elem_of_cons in Hin as [->|Hin];
    [apply HG, list_elem_of_further, list_elem_of_here|].
  apply elem_of_cons in Hin as [->|Hin];
    [apply HG; do 2 apply list_elem_of_further; apply list_elem_of_here|].
  apply elem_of_cons in Hin as [->|Hin]; [exact (HA eq_refl)|].
  inversion Hin.
Qed.

(** X3.  Translation succeeds exactly on the trees that [renderable]
    accepts: clauses of the six registered classes, leaves carrying the
    attributes [build_field] reads (a phrase at least one word), every
    child of a group qualifying in turn, and [AndNot] with exactly two
    children.  On every other tree it ends in an exception. *)
Theorem render_succeeds_iff_renderable (c : clause) :
  (renderable c = true ↔ ∃ s, render c HANDLERS = Run HANDLERS [] (Return s))
  ∧ (renderable c = false ↔ ∃ e, render c HANDLERS = Run HANDLERS [] (Raise e)).
Proof.
  assert (Hiff : renderable c = true
                 ↔ ∃ s, render c HANDLERS = Run HANDLERS [] (Return s)).
  { split; [apply renderable_renders|]. intros [s Hs]. by apply rendered_is_renderable in Hs. }
  split; [exact Hiff|]. split.
  - intros Hfalse. destruct (render_cases c HANDLERS) as [Hs|He]; [|exact He].
    apply Hiff in Hs. congruence.
  - intros [e He]. destruct (renderable c) eqn:Hr; [|done].
    apply renderable_renders in Hr as [s Hs].
    by destruct (render_Return_not_Raise _ _ _ _ Hs He).
Qed.

(** ** Rendering depends on the children only through their renderings *)

Lemma children_render_transfer H (cs cs' : list clause) (ss : list string) :
  Forall2 (λ a b, render a H = render b H) cs cs' →
  Forall2 (λ child s, render child H = Run H [] (Return s)) cs ss →
  Forall2 (λ child s, render child H = Run H [] (Return s)) cs' ss.
Proof.
  intros Hsame. revert ss.
  induction Hsame as [|a b cs cs' Eab _ IH]; intros ss Hss.
  - inversion Hss. constructor.
  - inversion Hss as [|? s ? ss' Ea Hrest]; subst. constructor; [congruence|by apply IH].
Qed.

Lemma render_grouper_congr H (c c' : clause) :
  H !! __class__ c = Some fn_build_grouper →
  __class__ c' = __class__ c →
  Forall2 (λ a b, render a H = render b H) (children c) (children c') →
  render c H = render c' H.
Proof.
  intros Hfn Ecls Hsame.
  assert (Hfn' : H !! __class__ c' = Some fn_build_grouper) by (by rewrite Ecls).
  destruct (children_render_split H (children c))
    as [[ss Hss]|(rendered & ss & bad & rest & e & Ecs & Hss & Ebad)].
  - rewrite (render_grouper_ok H c ss Hfn Hss).
    rewrite (render_grouper_ok H c' ss Hfn' (children_render_transfer _ _ _ _ Hsame Hss)).
    by rewrite Ecls.
  - rewrite Ecs in Hsame.
    apply Forall2_app_inv_l in Hsame as (rendered' & tail' & Hren & Htail & Ecs').
    apply Forall2_cons_inv_l in Htail as (bad' & rest' & Ebb & _ & ->).
    rewrite (render_grouper_raise H c rendered ss bad rest e Hfn Ecs Hss Ebad).
    symmetry. apply (render_grouper_raise H c' rendered' ss bad' rest'); [done|done| |congruence].
    by apply (children_render_transfer H rendered).
Qed.

Lemma render_compound_arity H (c : clause) :
  H !! __class__ c = Some fn_build_compound →
  match children c with
  | [] => render c H = Run H [] (Raise (ValueError "need more than 0 values to unpack"))
  | [_] => render c H = Run H [] (Raise (ValueError "need more than 1 value to unpack"))
  | [_; _] => True
  | _ => render c H = Run H [] (Raise (ValueError "too many values to unpack"))
  end.
Proof.
  intros Hfn.
  destruct (children c) as [|use [|avoid [|extra rest]]] eqn:Ec; [| |done|];
    apply render_of_walk_Raise with ["(and "];
    rewrite (walk_clause_registered c H _ Hfn); simpl; unfold build_compound;
    by rewrite bind_yield, Ec.
Qed.

Lemma render_compound_pair_congr H (c c' use avoid use' avoid' : clause) :
  H !! __class__ c = Some fn_build_compound →
  H !! __class__ c' = Some fn_build_compound →
  children c = [use; avoid] →
  children c' = [use'; avoid'] →
  render use H = render use' H →
  render avoid H = render avoid' H →
  render c H = render c' H.
Proof.
  intros Hfn Hfn' Ec Ec' Euse Eavoid.
  destruct (render_cases use H) as [[k Ek]|[err Ek]].
  - destruct (render_cases avoid H) as [[e Ee]|[err Ee]].
    + rewrite (render_compound_ok H c use avoid k e Hfn Ec Ek Ee).
      symmetry. apply (render_compound_ok H c' use' avoid'); congruence.
    + rewrite (render_compound_raise_avoid H c use avoid k err Hfn Ec Ek Ee).
      symmetry. apply (render_compound_raise_avoid H c' use' avoid' k); congruence.
  - rewrite (render_compound_raise_use H c use avoid err Hfn Ec Ek).
    symmetry. apply (render_compound_raise_use H c' use' avoid'); congruence.
Qed.

Lemma render_compound_congr H (c c' : clause) :
  H !! __class__ c = Some fn_build_compound →
  __class__ c' = __class__ c →
  Forall2 (λ a b, render a H = render b H) (children c) (children c') →
  render c H = render c' H.
Proof.
  intros Hfn Ecls Hsame.
  assert (Hfn' : H !! __class__ c' = Some fn_build_compound) by (by rewrite Ecls).
  assert (Ha := render_compound_arity H c Hfn).
  assert (Ha' := render_compound_arity H c' Hfn').
  destruct (children c) as [|use [|avoid [|extra rest]]] eqn:Ec.
  - apply Forall2_nil_inv_l in Hsame. rewrite Hsame in Ha'. congruence.
  - apply Forall2_cons_inv_l in Hsame as (use' & tl & Euse & Htl & Ec').
    apply Forall2_nil_inv_l in Htl as ->. rewrite Ec' in Ha'. congruence.
  - apply Forall2_cons_inv_l in Hsame as (use' & tl & Euse & Htl & Ec').
    apply Forall2_cons_inv_l in Htl as (avoid' & tl' & Eavoid & Htl' & ->).
    apply Forall2_nil_inv_l in Htl' as ->.
    by apply (render_compound_pair_congr H c c' use avoid use' avoid').
  - apply Forall2_cons_inv_l in Hsame as (use' & tl & Euse & Htl & Ec').
    apply Forall2_cons_inv_l in Htl as (avoid' & tl' & Eavoid & Htl' & ->).
    apply Forall2_cons_inv_l in Htl' as (extra' & tl'' & Eextra & Htl'' & ->).
    rewrite Ec' in Ha'. congruence.
Qed.

(** An [AndNot] of two operands against the [And]/[Not] group of operands
    that render the same. *)
Lemma render_andnot_group (c keep exclude keep' exclude' : clause) :
  __class__ c = AndNot →
  children c = [keep; exclude] →
  render keep HANDLERS = render keep' HANDLERS →
  render exclude HANDLERS = render exclude' HANDLERS →
  render c HANDLERS = render (new_And [keep'; new_Not exclude']) HANDLERS.
Proof.
  intros Hcls Ec Ekeep Eexcl.
  assert (Hc : HANDLERS !! __class__ c = Some fn_build_compound) by (by rewrite Hcls).
  assert (HA : HANDLERS !! __class__ (new_And [keep'; new_Not exclude'])
               = Some fn_build_grouper) by reflexivity.
  assert (HN : HANDLERS !! __class__ (new_Not exclude') = Some fn_build_grouper)
    by reflexivity.
  destruct (render_cases keep HANDLERS) as [[k Ek]|[err Ek]].
  - destruct (render_cases exclude HANDLERS) as [[e Ee]|[err Ee]].
    + rewrite (render_compound_ok _ c keep exclude k e Hc Ec Ek Ee).
      assert (En : render (new_Not exclude') HANDLERS
                   = Run HANDLERS [] (Return ("(not " +:+ e +:+ ")"))).
      { rewrite (render_grouper_ok _ (new_Not exclude') [e] HN).
        - simpl. by rewrite append_assoc.
        - constructor; [congruence|constructor]. }
      rewrite (render_grouper_ok _ (new_And [keep'; new_Not exclude'])
                 [k; "(not " +:+ e +:+ ")"] HA).
      * simpl. by rewrite !append_assoc.
      * constructor; [congruence|]. constructor; [exact En|constructor].
    + rewrite (render_compound_raise_avoid _ c keep exclude k err Hc Ec Ek Ee).
      symmetry.
      apply (render_grouper_raise _ _ [keep'] [k] (new_Not exclude') [] err HA eq_refl).
      * constructor; [congruence|constructor].
      * apply (render_grouper_raise _ _ [] [] exclude' [] err HN eq_refl);
          [constructor|congruence].
  - rewrite (render_compound_raise_use _ c keep exclude err Hc Ec Ek).
    symmetry.
    apply (render_grouper_raise _ _ [] [] keep' [new_Not exclude'] err HA eq_refl);
      [constructor|congruence].
Qed.

(** X4.  Replacing every two-operand [AndNot] in a tree, at any depth, by
    the [And] of its first operand and the [Not] of its second does not
    change what translation returns: the same string, or the same
    exception. *)
Theorem expand_andnot_preserves_render (c : clause) :
  render (expand_andnot c) HANDLERS = render c HANDLERS.
Proof.
  induction c as [c IH] using clause_children_ind.
  destruct c as [cls f t w i cs]. simpl in IH. cbn [expand_andnot]. cbv zeta.
  assert (Hsame : Forall2 (λ a b, render a HANDLERS = render b HANDLERS)
                          cs (map expand_andnot cs)).
  { clear -IH. induction IH as [|x cs Hx _ IHcs]; constructor; [by symmetry|done]. }
  set (c0 := Clause cls f t w i cs).
  set (c1 := Clause cls f t w i (map expand_andnot cs)).
  assert (Egen : render c1 HANDLERS = render c0 HANDLERS).
  { destruct (HANDLERS !! cls) as [[| |]|] eqn:Hfn.
    - unfold render, join.
      rewrite (walk_clause_registered c1 _ _ Hfn), (walk_clause_registered c0 _ _ Hfn).
      simpl call_handler. change (build_field c1) with (build_field c0). reflexivity.
    - symmetry. by apply render_grouper_congr.
    - symmetry. by apply render_compound_congr.
    - unfold render, join.
      rewrite (walk_clause_unregistered c1 _ Hfn), (walk_clause_unregistered c0 _ Hfn).
      reflexivity. }
  destruct (decide (cls = AndNot)) as [->|Hne]; [|exact Egen].
  destruct cs as [|keep [|exclude [|extra rest]]]; try exact Egen.
  simpl map. apply Forall2_cons in Hsame as [Hkeep Hsame].
  apply Forall2_cons in Hsame as [Hexcl _].
  symmetry. by apply (render_andnot_group c0 keep exclude).
Qed.

(** X5.  Under a handler that recurses, the first child that raises, in
    the order of [children()], decides the outcome: its exception is the
    one the caller gets, whatever the children after it are. *)
Theorem first_failing_child_decides
    (H : gmap pyclass handler_fn) (c : clause) (fn : handler_fn)
    (rendered : list clause) (ss : list string) (bad : clause) (rest : list clause)
    (e : exn) :
  H !! __class__ c = Some fn →
  fn ≠ fn_build_field →
  (fn = fn_build_compound → List.length (children c) = 2) →
  children c = rendered ++ bad :: rest →
  Forall2 (λ child s, render child H = Run H [] (Return s)) rendered ss →
  render bad H = Run H [] (Raise e) →
  render c H = Run H [] (Raise e).
Proof.
  intros Hfn Hrec Harity Ec Hss Ebad. destruct fn; [done| |].
  - by apply (render_grouper_raise H c rendered ss bad rest).
  - specialize (Harity eq_refl). rewrite Ec in Harity.
    destruct Hss as [|use k rendered ss Euse Hss].
    + destruct rest as [|avoid [|? ?]]; try discriminate.
      by apply (render_compound_raise_use H c bad avoid).
    + destruct Hss as [|x s' rendered' ss' _ _].
      * destruct rest; [|discriminate].
        by apply (render_compound_raise_avoid H c use bad k).
      * simpl in Harity. rewrite length_app in Harity. simpl in Harity. lia.
Qed.

Lemma first_failing_child_decides_witness :
  render (new_Or [new_Term "text" "foo"; new_Prefix "text" "ba"; new_Phrase "text" []])
         HANDLERS
  = Run HANDLERS [] (Raise (KeyError Prefix)).
Proof.
  apply (first_failing_child_decides HANDLERS _ fn_build_grouper
           [new_Term "text" "foo"] ["(field text 'foo')"] (new_Prefix "text" "ba")
           [new_Phrase "text" []]).
  - reflexivity.
  - discriminate.
  - discriminate.
  - reflexivity.
  - repeat constructor.
  - reflexivity.
Defined.

(** X6.  A group without children is not an error: [And], [Or] or [Not]
    with nothing under it renders as the bare keyword in parentheses. *)
Theorem empty_group_renders_bare_keyword (c : clause) (kw : string) :
  (__class__ c, kw) ∈ [(And, "and"); (Or, "or"); (Not, "not")] →
  children c = [] →
  render c HANDLERS = Run HANDLERS [] (Return ("(" +:+ kw +:+ ")")).
Proof.
  intros Hkind Ec.
  assert (HANDLERS !! __class__ c = Some fn_build_grouper
          ∧ kw = lower (__name__ (__class__ c))) as [Hfn ->].
  { apply elem_of_cons in Hkind as [[= -> ->]|Hkind]; [by split|].
    apply elem_of_cons in Hkind as [[= -> ->]|Hkind]; [by split|].
    apply elem_of_cons in Hkind as [[= -> ->]|Hkind]; [by split|].
    inversion Hkind. }
  rewrite (render_grouper_ok HANDLERS c [] Hfn); [reflexivity|].
  rewrite Ec. constructor.
Qed.

Lemma empty_group_renders_bare_keyword_witness :
  render (new_And []) HANDLERS = Run HANDLERS [] (Return "(and)").
Proof.
  apply (empty_group_renders_bare_keyword (new_And []) "and"); [|reflexivity].
  apply list_elem_of_here.
Defined.

(** X7.  The output does not tell a phrase from a term: a phrase with at
    least one word renders exactly as the term whose text is its words
    joined by single spaces. *)
Theorem phrase_renders_as_joined_term (f : string) (ws : list string) :
  ws ≠ [] →
  render (new_Phrase f ws) HANDLERS
  = render (new_Term f (String.concat " " ws)) HANDLERS.
Proof.
  intros Hne.
  rewrite (render_phrase_words (new_Phrase f ws) f ws HANDLERS);
    [|reflexivity..|exact Hne|reflexivity].
  generalize (String.concat " " ws). intros t. reflexivity.
Qed.

Lemma phrase_renders_as_joined_term_witness :
  render (new_Phrase "text" ["foo"; "bar"]) HANDLERS
  = render (new_Term "text" "foo bar") HANDLERS.
Proof. apply (phrase_renders_as_joined_term "text" ["foo"; "bar"]). discriminate. Defined.

(** ** The plugins that [make_parser] adds *)

Lemma plugin_mapping_fold_lookup {R} (modify_node : string → SyntaxNode → R)
    (fieldnames : list string) (name : string) (m : gmap string (SyntaxNode → R)) :
  foldl (λ mapping name, <[name := modify_node_fn name modify_node]> mapping)
        m fieldnames !! name
  = if bool_decide (name ∈ fieldnames) then Some (modify_node_fn name modify_node)
    else m !! name.
Proof.
  revert m. induction fieldnames as [|x l IH]; intros m; [done|].
  simpl foldl. rewrite IH. destruct (decide (name = x)) as [->|Hne].
  - rewrite (bool_decide_eq_true_2 (x ∈ x :: l)) by apply list_elem_of_here.
    case_bool_decide; [done|apply lookup_insert_eq].
  - rewrite lookup_insert_ne by done.
    replace (bool_decide (name ∈ x :: l)) with (bool_decide (name ∈ l)); [done|].
    apply bool_decide_ext. rewrite elem_of_cons. split; [by right|].
    by intros [?|?].
Qed.

(** X8.  The parser [make_parser] builds has an integer rule (a yes/no
    rule) for a field exactly when the field is in the list given, or in
    the default list when none is given; an empty list is taken as given,
    so it switches the rule off; and the rule found under a name is the
    one for that very name. *)
Theorem make_parser_rules
    (int_of_str : string → option Z) (default_field : string)
    (int_fields yesno_fields : option (list string)) (name : string) :
  let parser := make_parser int_of_str default_field int_fields yesno_fields in
  parser_int_plugin parser !! name
  = (if bool_decide (name ∈ default ["count"; "number"] int_fields)
     then Some (λ node, IntNodePlugin_modify_node int_of_str name node)
     else None)
  ∧ parser_yesno_plugin parser !! name
    = (if bool_decide (name ∈ default ["is_active"; "is_ready"] yesno_fields)
       then Some (λ node, YesNoPlugin_modify_node int_of_str name node)
       else None).
Proof.
  intros parser. unfold parser, make_parser. simpl. split.
  - destruct int_fields as [l|]; unfold IntNodePlugin, plugin_mapping;
      rewrite plugin_mapping_fold_lookup; simpl default;
      case_bool_decide; reflexivity.
  - destruct yesno_fields as [l|]; unfold YesNoPlugin, plugin_mapping;
      rewrite plugin_mapping_fold_lookup; simpl default;
      case_bool_decide; reflexivity.
Qed.

(** X9.  The integer rule is idempotent: applied to the node it returned,
    under the same field, it returns that node again, provided [int] reads
    back what [str] wrote. *)
Theorem int_rule_idempotent
    (int_of_str : string → option Z) (name : string) (node out : SyntaxNode) :
  (∀ n, int_of_str (py_str n) = Some n) →
  IntNodePlugin_modify_node int_of_str name node = Return (Some out) →
  IntNodePlugin_modify_node int_of_str name out = Return (Some out).
Proof.
  intros Hcanon Hout. unfold IntNodePlugin_modify_node in Hout.
  destruct (has_text node) eqn:Htext.
  - unfold IntNode_init, py_int in Hout.
    destruct (int_of_str (node_text node)) as [n|]; simpl in Hout; [|discriminate].
    injection Hout as <-.
    unfold IntNodePlugin_modify_node, IntNode_init, py_int. simpl.
    by rewrite Hcanon.
  - injection Hout as <-. unfold IntNodePlugin_modify_node. by rewrite Htext.
Qed.

Lemma int_rule_idempotent_witness :
  IntNodePlugin_modify_node decimal_literal "count" (IntNode 7 "7" (Some "count"))
  = Return (Some (IntNode 7 "7" (Some "count"))).
Proof.
  apply (int_rule_idempotent decimal_literal "count" (WordNode "007" None)).
  - apply decimal_literal_py_str.
  - reflexivity.
Defined.

(** X10.  The yes/no rule never fails or drops, and is idempotent: what it
    returns for a node is a node it maps to itself. *)
Theorem yesno_rule_idempotent
    (int_of_str : string → option Z) (name : string) (node : SyntaxNode) :
  ∃ out,
    YesNoPlugin_modify_node int_of_str name node = Return (Some out)
    ∧ YesNoPlugin_modify_node int_of_str name out = Return (Some out).
Proof.
  unfold YesNoPlugin_modify_node at 1. destruct (has_text node) eqn:Htext.
  - case_bool_decide; eexists; (split; [reflexivity|]); reflexivity.
  - exists node. split; [reflexivity|]. unfold YesNoPlugin_modify_node. by rewrite Htext.
Qed.

(** X11.  A word under an integer field whose text [int] accepts comes out
    of the translation as [<field>:<str(int(text))>]: the rule's node, turned
    into a query by [IntNode.query], renders unquoted with the canonical
    digits, whatever spelling the input had. *)
Theorem int_field_renders_canonical
    (int_of_str : string → option Z) (name parser_fieldname : string)
    (node : SyntaxNode) (n : Z) :
  has_text node = true →
  name ≠ EmptyString →
  int_of_str (node_text node) = Some n →
  ∃ out,
    IntNodePlugin_modify_node int_of_str name node = Return (Some out)
    ∧ render (IntNode_query parser_fieldname out) HANDLERS
      = Run HANDLERS [] (Return (name +:+ ":" +:+ py_str n)).
Proof.
  intros Htext Hname Hint. exists (IntNode n (py_str n) (Some name)). split.
  - unfold IntNodePlugin_modify_node, IntNode_init, py_int.
    by rewrite Htext, Hint.
  - unfold IntNode_query, WordNode_query. simpl.
    rewrite decide_False by done. generalize (py_str n). intros t. reflexivity.
Qed.

Lemma int_field_renders_canonical_witness :
  ∃ out,
    IntNodePlugin_modify_node decimal_literal "count" (WordNode "-007" None)
    = Return (Some out)
    ∧ render (IntNode_query "text" out) HANDLERS
      = Run HANDLERS [] (Return "count:-7").
Proof.
  apply (int_field_renders_canonical decimal_literal "count" "text"
           (WordNode "-007" None) (-7)%Z); [reflexivity|discriminate|reflexivity].
Defined.

(** ** The self-test loop on any table, [main] and the script entry *)

Lemma read_only_convert (parse : string → outcome clause) (query : string) :
  read_only (convert parse query).
Proof.
  intros H. unfold convert.
  apply read_only_bind; [done|]. intros parsed. apply read_only_render.
Qed.

(** X12.  The loop of [run_tests] ends normally exactly when every entry of
    the table is a pair whose input converts to its expected output; it
    then has printed, for each entry in order, the line that
    [print input_, 'becomes', output, "? ... "] writes and the line
    [yup!]. *)
Theorem run_tests_loop_passes_iff
    (parse : string → outcome clause) (tests : list (list string))
    (H : gmap pyclass handler_fn) :
  (snd (run_tests_loop parse tests H) = Return tt
   ↔ Forall (λ entry, ∃ input_ output,
               entry = [input_; output]
               ∧ result (convert parse input_ H) = Return output) tests)
  ∧ (snd (run_tests_loop parse tests H) = Return tt →
     fst (run_tests_loop parse tests H)
     = flat_map (λ entry,
                   match entry with
                   | [input_; output] =>
                       [print_items [input_; "becomes"; output; "? ... "];
                        print_items [tab +:+ "yup!"]]
                   | _ => []
                   end) tests).
Proof.
  induction tests as [|entry tests [IHiff IHout]]; [split; [split|]; done|].
  destruct entry as [|input_ [|output [|extra rest]]]; simpl;
    try (split; [split; [discriminate|]|discriminate];
         intros Hall; apply Forall_cons in Hall as [(i & o & [=] & _) _]).
  rewrite (read_only_convert parse input_ H).
  destruct (result (convert parse input_ H)) as [res|e] eqn:Eres; simpl.
  - case_bool_decide as Hres.
    + subst res. destruct (run_tests_loop parse tests H) as [printed outcome].
      simpl in *. split; [split|].
      * intros Hok. constructor; [by exists input_, output|by apply IHiff].
      * intros Hall. apply Forall_cons in Hall as [_ Hall]. by apply IHiff.
      * intros Hok. by rewrite (IHout Hok).
    + simpl. split; [split; [discriminate|]|discriminate].
      intros Hall. apply Forall_cons in Hall as [(i & o & [= <- <-] & Ho) _].
      congruence.
  - split; [split; [discriminate|]|discriminate].
    intros Hall. apply Forall_cons in Hall as [(i & o & [= <- <-] & Ho) _].
    congruence.
Qed.

Lemma run_tests_loop_passes_iff_witness :
  run_tests_loop sample_parse
    [["foo"; "(field text 'foo')"]; ["NOT foo"; "(not (field text 'foo'))"]] HANDLERS
  = (["foo becomes (field text 'foo') ? ... "; tab +:+ "yup!";
      "NOT foo becomes (not (field text 'foo')) ? ... "; tab +:+ "yup!"],
     Return tt).
Proof.
  destruct (run_tests_loop_passes_iff sample_parse
              [["foo"; "(field text 'foo')"]; ["NOT foo"; "(not (field text 'foo'))"]]
              HANDLERS) as [[_ Hpass] Hprinted].
  assert (Hok : snd (run_tests_loop sample_parse
                       [["foo"; "(field text 'foo')"];
                        ["NOT foo"; "(not (field text 'foo'))"]] HANDLERS) = Return tt).
  { apply Hpass. repeat constructor.
    - exists "foo", "(field text 'foo')". split; [reflexivity|vm_compute; reflexivity].
    - exists "NOT foo", "(not (field text 'foo'))".
      split; [reflexivity|vm_compute; reflexivity]. }
  specialize (Hprinted Hok).
  destruct (run_tests_loop sample_parse _ HANDLERS) as [printed outcome].
  simpl in Hok, Hprinted. by rewrite Hok, Hprinted.
Defined.

(** X13.  The loop stops at the first pair that does not pass and never
    looks at the entries after it: after the lines of the pairs that
    passed it prints the line of the failing pair and then either what
    [print "\tnope:", result] writes, raising [AssertionError], or nothing
    more when the conversion itself raised, whose exception it lets
    through. *)
Theorem run_tests_loop_stops_at_first_failure
    (parse : string → outcome clause) (passed rest : list (list string))
    (input_ output : string) (H : gmap pyclass handler_fn) :
  Forall (λ entry, ∃ i o, entry = [i; o]
                          ∧ result (convert parse i H) = Return o) passed →
  result (convert parse input_ H) ≠ Return output →
  run_tests_loop parse (passed ++ [input_; output] :: rest) H
  = (flat_map (λ entry,
                 match entry with
                 | [i; o] => [print_items [i; "becomes"; o; "? ... "];
                              print_items [tab +:+ "yup!"]]
                 | _ => []
                 end) passed
     ++ print_items [input_; "becomes"; output; "? ... "]
        :: match result (convert parse input_ H) with
           | Return actual => [print_items [tab +:+ "nope:"; actual]]
           | Raise _ => []
           end,
     match result (convert parse input_ H) with
     | Return _ => Raise AssertionError
     | Raise e => Raise e
     end).
Proof.
  intros Hpassed Hfail.
  induction Hpassed as [|entry passed (i & o & -> & Eo) _ IH].
  - simpl. destruct (result (convert parse input_ H)) as [actual|e]; [|done].
    rewrite bool_decide_eq_false_2; [done|]. congruence.
  - simpl. rewrite (read_only_convert parse i H), Eo.
    rewrite bool_decide_eq_true_2 by done. by rewrite IH.
Qed.

Lemma run_tests_loop_stops_at_first_failure_witness :
  run_tests_loop sample_parse
    [["foo"; "(field text 'foo')"]; ["NOT foo"; "(not foo)"]; ["never run"]] HANDLERS
  = (["foo becomes (field text 'foo') ? ... "; tab +:+ "yup!";
      "NOT foo becomes (not foo) ? ... "; tab +:+ "nope: (not (field text 'foo'))"],
     Raise AssertionError).
Proof.
  apply (run_tests_loop_stops_at_first_failure sample_parse
           [["foo"; "(field text 'foo')"]] [["never run"]] "NOT foo" "(not foo)" HANDLERS).
  - constructor; [|constructor]. exists "foo", "(field text 'foo')".
    split; [reflexivity|]. vm_compute. reflexivity.
  - vm_compute. discriminate.
Defined.

(** X14.  [main] prints the query and the two forms whoosh gives of the
    parsed tree before it translates: on a tree that renders it adds the
    line with the translation, the string [convert] returns for the same
    query; on any other tree it has printed those three lines when the
    exception of the translation leaves it. *)
Theorem main_prints_translation_iff_renderable
    (parse : string → outcome clause) (repr_clause str_clause : clause → string)
    (args : list string) (parsed : clause) :
  let query := String.concat " " (tail args) in
  let header := ["Lucene input: " +:+ query;
                 "Parsed representation: " +:+ repr_clause parsed;
                 "Lucene form: " +:+ str_clause parsed] in
  parse query = Return parsed →
  (renderable parsed = true →
   ∃ s, main parse repr_clause str_clause args HANDLERS
        = (header ++ ["Cloudsearch form: " +:+ s], Return tt)
        ∧ result (convert parse query HANDLERS) = Return s)
  ∧ (renderable parsed = false →
     ∃ e, main parse repr_clause str_clause args HANDLERS = (header, Raise e)
          ∧ result (convert parse query HANDLERS) = Raise e).
Proof.
  intros query header Hparse.
  assert (Econv : result (convert parse query HANDLERS) = result (render parsed HANDLERS)).
  { unfold convert. fold (render parsed).
    rewrite (bind_Return _ _ HANDLERS HANDLERS [] parsed); [done|].
    unfold lift. by rewrite Hparse. }
  unfold main. fold query. rewrite Hparse. fold (render parsed). split.
  - intros [s Hs]%renderable_renders. exists s. rewrite Econv, Hs. by split.
  - intros Hno. destruct (render_cases parsed HANDLERS) as [[s Hs]|[e He]].
    + apply rendered_is_renderable in Hs. congruence.
    + exists e. rewrite Econv, He. by split.
Qed.

Lemma main_prints_translation_iff_renderable_witness :
  main sample_parse (λ _, "repr") (λ _, "str") ["l2cs.py"; "NOT"; "foo"] HANDLERS
  = (["Lucene input: NOT foo"; "Parsed representation: repr"; "Lucene form: str";
      "Cloudsearch form: (not (field text 'foo'))"], Return tt).
Proof.
  destruct (main_prints_translation_iff_renderable sample_parse (λ _, "repr") (λ _, "str")
              ["l2cs.py"; "NOT"; "foo"] (new_Not (new_Term "text" "foo")))
    as [Hyes _]; [vm_compute; reflexivity|].
  destruct (Hyes eq_refl) as (s & Hmain & Hconv).
  rewrite Hmain. vm_compute in Hconv. injection Hconv as <-. reflexivity.
Defined.

(** X15.  The script ends normally only when it was given a first argument
    other than [--test], and then it did what [main] does on the whole
    argument list: without arguments it raises [IndexError] having printed
    nothing, and with [--test] it runs the self-test, which always ends in
    an exception. *)
Theorem script_returns_only_through_main
    (parse : string → outcome clause) (repr_clause str_clause : clause → string)
    (argv : list string) (H : gmap pyclass handler_fn) :
  (List.length argv < 2 →
   script parse repr_clause str_clause argv H = ([], Raise IndexError))
  ∧ (snd (script parse repr_clause str_clause argv H) = Return tt →
     ∃ arg, argv !! 1%nat = Some arg
            ∧ arg ≠ "--test"
            ∧ script parse repr_clause str_clause argv H
              = main parse repr_clause str_clause argv H).
Proof.
  unfold script. split.
  - intros Hlen. rewrite lookup_ge_None_2; [done|lia].
  - destruct (argv !! 1%nat) as [arg|]; [|discriminate].
    destruct (decide (arg = "--test")) as [->|Hne].
    + intros Hok. exfalso. unfold run_tests in Hok.
      destruct (run_tests_loop_short_entry parse TESTS ["bar AND foo:-baz"] H)
        as (printed & e & Erun).
      * unfold TESTS.
        repeat (first [apply list_elem_of_here | apply list_elem_of_further]).
      * discriminate.
      * rewrite Erun in Hok. discriminate.
    + intros _. by exists arg.
Qed.

Lemma script_returns_only_through_main_witness :
  script sample_parse (λ _, "repr") (λ _, "str") [] HANDLERS = ([], Raise IndexError)
  ∧ ∃ arg, ["l2cs.py"; "foo"] !! 1%nat = Some arg ∧ arg ≠ "--test".
Proof.
  split.
  - apply (script_returns_only_through_main sample_parse (λ _, "repr") (λ _, "str") []
             HANDLERS). simpl. lia.
  - destruct (script_returns_only_through_main sample_parse (λ _, "repr") (λ _, "str")
                ["l2cs.py"; "foo"] HANDLERS) as [_ Hmain].
    destruct Hmain as (arg & Harg & Hne & _); [vm_compute; reflexivity|].
    by exists arg.
Defined.

(** ** The output is balanced *)

Lemma count_char_append a (s1 s2 : string) :
  count_char a (s1 +:+ s2) = (count_char a s1 + count_char a s2)%nat.
Proof.
  induction s1 as [|b s1 IH]; [done|].
  rewrite append_cons. simpl. rewrite IH. lia.
Qed.

Lemma count_char_concat a (sep : string) (l : list string) :
  count_char a sep = 0%nat →
  Forall (λ s, count_char a s = 0%nat) l →
  count_char a (String.concat sep l) = 0%nat.
Proof.
  intros Hsep. induction 1 as [|s l Hs Hl IH]; [done|].
  destruct l as [|s' l]; [done|].
  change (String.concat sep (s :: s' :: l))
    with (s +:+ sep +:+ String.concat sep (s' :: l)).
  rewrite !count_char_append, Hs, Hsep, IH. done.
Qed.

Lemma no_parens_count (s : string) :
  no_parens s = true → count_char "(" s = 0%nat ∧ count_char ")" s = 0%nat.
Proof.
  unfold no_parens. intros [H1 H2]%andb_prop.
  apply bool_decide_eq_true in H1. apply bool_decide_eq_true in H2. by split.
Qed.

(** The renderings of children that are each balanced, with their
    separating spaces, are balanced together. *)
Lemma children_balanced (ss : list string) :
  Forall (λ s, count_char "(" s = count_char ")" s) ss →
  count_char "(" (String.concat EmptyString (map (λ s, " " +:+ s) ss))
  = count_char ")" (String.concat EmptyString (map (λ s, " " +:+ s) ss)).
Proof.
  induction 1 as [|s ss Hs _ IH]; [done|].
  simpl map. rewrite !concat_cons, !count_char_append, Hs, IH. done.
Qed.

Lemma Run_Return_inj {A} g ps (a : A) g' ps' (b : A) :
  Run g ps (Return a) = Run g' ps' (Return b) → a = b.
Proof. by intros [=]. Qed.

Lemma render_term_untagged (f t : string) w i cs :
  default false i = false →
  render (Clause Term (Some f) (Some t) w i cs) HANDLERS
  = Run HANDLERS [] (Return ("(field " +:+ f +:+ " '" +:+ t +:+ "')")).
Proof. destruct i as [[|]|]; [discriminate|reflexivity|reflexivity]. Qed.

Lemma render_leaf_tagged (cls : pyclass) (f t : string) w i cs :
  cls = Term ∨ cls = Phrase →
  default false i = true →
  render (Clause cls (Some f) (Some t) w i cs) HANDLERS
  = Run HANDLERS [] (Return (f +:+ ":" +:+ t)).
Proof.
  intros [->| ->]; (destruct i as [[|]|]; [reflexivity|discriminate|discriminate]).
Qed.

Lemma balanced_leaf (f t s : string) :
  no_parens f = true →
  count_char "(" t = 0%nat →
  count_char ")" t = 0%nat →
  s = "(field " +:+ f +:+ " '" +:+ t +:+ "')" ∨ s = f +:+ ":" +:+ t →
  count_char "(" s = count_char ")" s.
Proof.
  intros [Hfo Hfc]%no_parens_count Ho Hc [->| ->];
    rewrite !count_char_append, Hfo, Hfc, Ho, Hc; simpl; lia.
Qed.

(** X16.  When no field name, text or word of the tree contains a
    parenthesis, the translation has as many opening as closing
    parentheses. *)
Theorem translation_is_balanced (c : clause) (s : string) :
  paren_free c = true →
  render c HANDLERS = Run HANDLERS [] (Return s) →
  count_char "(" s = count_char ")" s.
Proof.
  revert s. induction c as [c IH] using clause_children_ind. intros s Hfree Hr.
  assert (Hren := rendered_is_renderable c s Hr).
  destruct c as [cls f t w i cs]. simpl in IH.
  cbn [paren_free] in Hfree. cbn [renderable] in Hren.
  apply andb_prop in Hfree as [Hfree Hcs]. apply andb_prop in Hfree as [Hfree Hw].
  apply andb_prop in Hfree as [Hf Ht].
  destruct (decide (cls = Term)) as [->|HT].
  { apply andb_prop in Hren as [Hf' Ht'].
    apply bool_decide_eq_true in Hf' as [f' ->].
    apply bool_decide_eq_true in Ht' as [t' ->].
    apply no_parens_count in Ht as [Hto Htc].
    apply (balanced_leaf f' t' s Hf Hto Htc).
    destruct (default false i) eqn:Hi.
    - right. rewrite (render_leaf_tagged Term f' t' w i cs (or_introl eq_refl) Hi) in Hr.
      symmetry. exact (Run_Return_inj _ _ _ _ _ _ Hr).
    - left. rewrite (render_term_untagged f' t' w i cs Hi) in Hr.
      symmetry. exact (Run_Return_inj _ _ _ _ _ _ Hr). }
  destruct (decide (cls = Phrase)) as [->|HP].
  { apply andb_prop in Hren as [Hf' Hv].
    apply bool_decide_eq_true in Hf' as [f' ->].
    destruct (default false i) eqn:Hi.
    - apply bool_decide_eq_true in Hv as [t' ->].
      apply no_parens_count in Ht as [Hto Htc].
      apply (balanced_leaf f' t' s Hf Hto Htc). right.
      rewrite (render_leaf_tagged Phrase f' t' w i cs (or_intror eq_refl) Hi) in Hr.
      symmetry. exact (Run_Return_inj _ _ _ _ _ _ Hr).
    - destruct w as [[|w0 ws]|]; [discriminate Hv| |discriminate Hv].
      change (forallb no_parens (w0 :: ws) = true) in Hw.
      rewrite forallb_forall in Hw.
      assert (Hwords : Forall (λ x, count_char "(" x = 0%nat) (w0 :: ws)
                       ∧ Forall (λ x, count_char ")" x = 0%nat) (w0 :: ws)).
      { split; apply Forall_forall; intros x Hx%list_elem_of_In;
          apply Hw, no_parens_count in Hx as [Hxo Hxc]; assumption. }
      destruct Hwords as [Hwo Hwc].
      apply (balanced_leaf f' (String.concat " " (w0 :: ws)) s Hf).
      + apply count_char_concat; [reflexivity|exact Hwo].
      + apply count_char_concat; [reflexivity|exact Hwc].
      + left.
        rewrite (render_phrase_words (Clause Phrase (Some f') t (Some (w0 :: ws)) i cs)
                   f' (w0 :: ws) HANDLERS eq_refl eq_refl eq_refl eq_refl
                   ltac:(discriminate) Hi) in Hr.
        symmetry. exact (Run_Return_inj _ _ _ _ _ _ Hr). }
  assert (Hkids : ∀ child s', child ∈ cs →
            render child HANDLERS = Run HANDLERS [] (Return s') →
            count_char "(" s' = count_char ")" s').
  { clear Hr. intros child s' Hin Hs'. rewrite Forall_forall in IH.
    apply (IH child Hin s'); [|exact Hs'].
    rewrite forallb_forall in Hcs. apply Hcs, list_elem_of_In, Hin. }
  destruct (decide (cls ∈ [And; Or; Not])) as [Hg|HG].
  { assert (Hss : ∃ ss, Forall2 (λ child s',
              render child HANDLERS = Run HANDLERS [] (Return s')) cs ss).
    { rewrite forallb_forall in Hren. clear -Hren.
      induction cs as [|x cs IHcs]; [exists []; constructor|].
      destruct (renderable_renders x) as [sx Hx]; [apply Hren; left; reflexivity|].
      destruct IHcs as [ss Hss]; [intros y Hy; apply Hren; right; exact Hy|].
      exists (sx :: ss). constructor; assumption. }
    destruct Hss as [ss Hss].
    assert (Hbal : Forall (λ s', count_char "(" s' = count_char ")" s') ss).
    { clear -Hss Hkids. induction Hss as [|x sx cs ss Hx _ IHss]; constructor.
      - apply (Hkids x sx); [apply list_elem_of_here|exact Hx].
      - apply IHss. intros child s' Hin. apply Hkids, list_elem_of_further, Hin. }
    assert (Hfn : HANDLERS !! cls = Some fn_build_grouper
                  ∧ count_char "(" (lower (__name__ cls)) = 0%nat
                  ∧ count_char ")" (lower (__name__ cls)) = 0%nat).
    { clear -Hg.
      repeat (apply elem_of_cons in Hg as [->|Hg]; [repeat split; reflexivity|]).
      inversion Hg. }
    destruct Hfn as (Hfn & Ho & Hc).
    rewrite (render_grouper_ok HANDLERS (Clause cls f t w i cs) ss Hfn Hss) in Hr.
    apply Run_Return_inj in Hr. subst s. simpl __class__.
    rewrite !count_char_append, Ho, Hc, (children_balanced ss Hbal).
    generalize (count_char ")" (String.concat EmptyString (map (λ s, " " +:+ s) ss))).
    intros n. simpl. lia. }
  destruct (decide (cls = AndNot)) as [->|HA]; [|discriminate Hren].
  destruct cs as [|use [|avoid [|extra rest]]];
    [discriminate Hren|discriminate Hren| |discriminate Hren].
  apply andb_prop in Hren as [Huse Havoid].
  destruct (renderable_renders use Huse) as [k Ek].
  destruct (renderable_renders avoid Havoid) as [e Ee].
  rewrite (render_compound_ok HANDLERS (Clause AndNot f t w i [use; avoid])
             use avoid k e eq_refl eq_refl Ek Ee) in Hr.
  apply Run_Return_inj in Hr. subst s.
  rewrite !count_char_append.
  rewrite (Hkids use k (list_elem_of_here _ _) Ek).
  rewrite (Hkids avoid e (list_elem_of_further _ _ _ (list_elem_of_here _ _)) Ee).
  generalize (count_char ")" k) (count_char ")" e). intros n m. simpl. lia.
Qed.

Lemma translation_is_balanced_witness :
  count_char "(" "(and (field text 'baz') (not (field text 'bar')))"
  = count_char ")" "(and (field text 'baz') (not (field text 'bar')))".
Proof.
  apply (translation_is_balanced
           (new_AndNot (new_Term "text" "baz") (new_Term "text" "bar"))); reflexivity.
Defined.

(** ** Registering further classes *)

(** A computation that neither reads nor writes the dictionary. *)
Lemma stateless_bind {A B} (m : gen A) (k : A → gen B) :
  (∃ ps r, ∀ H, m H = Run H ps r) →
  (∀ a, ∃ ps r, ∀ H, k a H = Run H ps r) →
  ∃ ps r, ∀ H, (m ≫= k) H = Run H ps r.
Proof.
  intros (ps & r & Hm) Hk. destruct r as [a|e].
  - destruct (Hk a) as (ps' & r' & Hka). exists (ps ++ ps'), r'. intros H.
    rewrite (bind_Return m k H H ps a (Hm H)). by rewrite Hka.
  - exists ps, (Raise e). intros H. by rewrite (bind_Raise m k H H ps e (Hm H)).
Qed.

Lemma stateless_for_in {A} (xs : list A) (body : A → gen unit) :
  (∀ x, ∃ ps r, ∀ H, body x H = Run H ps r) →
  ∃ ps r, ∀ H, for_in xs body H = Run H ps r.
Proof.
  intros Hbody. induction xs as [|x xs IH]; [by exists [], (Return tt)|].
  change (for_in (x :: xs) body) with (body x ≫= λ _, for_in xs body).
  apply stateless_bind; [apply Hbody|]. intros _. exact IH.
Qed.

Lemma stateless_yield piece : ∃ ps r, ∀ H, yield piece H = Run H ps r.
Proof. by exists [piece], (Return tt). Qed.

Lemma stateless_getattr {A} name (v : option A) :
  ∃ ps r, ∀ H, getattr name v H = Run H ps r.
Proof. destruct v as [a|]; [by exists [], (Return a)|by exists [], (Raise (AttributeError name))]. Qed.

Lemma stateless_build_field (c : clause) : ∃ ps r, ∀ H, build_field c H = Run H ps r.
Proof.
  unfold build_field. destruct (negb _).
  - apply stateless_bind; [apply stateless_yield|]. intros _.
    apply stateless_bind; [apply stateless_getattr|]. intros f.
    apply stateless_bind; [apply stateless_yield|]. intros _.
    apply stateless_bind; [apply stateless_yield|]. intros _.
    apply stateless_bind; [|intros _; apply stateless_yield].
    destruct (issubclass _ Term).
    { apply stateless_bind; [apply stateless_getattr|]. intros t. apply stateless_yield. }
    destruct (issubclass _ Phrase); [|by exists [], (Return tt)].
    apply stateless_bind; [apply stateless_getattr|]. intros ws.
    apply stateless_bind.
    + apply stateless_for_in. intros word.
      apply stateless_bind; [apply stateless_yield|]. intros _. apply stateless_yield.
    + intros _. destruct (last ws); [apply stateless_yield|by exists [], (Raise IndexError)].
  - apply stateless_bind; [apply stateless_getattr|]. intros f.
    apply stateless_bind; [apply stateless_yield|]. intros _.
    apply stateless_bind; [apply stateless_yield|]. intros _.
    apply stateless_bind; [apply stateless_getattr|]. intros t. apply stateless_yield.
Qed.

(** X17.  Registering handlers for further classes does not touch the
    translations that already succeed: a tree that renders to a string
    under a dictionary renders to the same string under any dictionary that
    extends it. *)
Theorem render_stable_under_extension
    (H H' : gmap pyclass handler_fn) (c : clause) (s : string) :
  (∀ cls fn, H !! cls = Some fn → H' !! cls = Some fn) →
  render c H = Run H [] (Return s) →
  render c H' = Run H' [] (Return s).
Proof.
  intros Hext. revert s. induction c as [c IH] using clause_children_ind.
  intros s Hr.
  assert (Hkids : ∀ child s', child ∈ children c →
            render child H = Run H [] (Return s') →
            render child H' = Run H' [] (Return s')).
  { intros child s' Hin. rewrite Forall_forall in IH. by apply IH. }
  destruct (H !! __class__ c) as [fn|] eqn:Hfn.
  2:{ apply render_Return_inv in Hr as (ps & Ewalk & _).
      rewrite (walk_clause_unregistered c H Hfn) in Ewalk.
      destruct (run_Raise_not_Return _ _ _ _ _ _ Ewalk). }
  assert (Hfn' := Hext _ _ Hfn). destruct fn.
  - apply render_Return_inv in Hr as (ps & Ewalk & <-).
    rewrite (walk_clause_registered c H _ Hfn) in Ewalk. simpl in Ewalk.
    destruct (stateless_build_field c) as (ps0 & r0 & Hrun).
    rewrite Hrun in Ewalk. injection Ewalk as -> ->.
    apply render_of_walk_Return.
    rewrite (walk_clause_registered c H' _ Hfn'). simpl. apply Hrun.
  - destruct (children_render_split H (children c))
      as [[ss Hss]|(rendered & ss & bad & rest & e & Ecs & Hss & Ebad)].
    + rewrite (render_grouper_ok H c ss Hfn Hss) in Hr.
      apply Run_Return_inj in Hr as <-.
      apply (render_grouper_ok H' c ss Hfn').
      clear -Hss Hkids. induction Hss as [|x sx cs ss Hx _ IHss]; constructor.
      * apply Hkids; [apply list_elem_of_here|exact Hx].
      * apply IHss. intros child s' Hin. apply Hkids, list_elem_of_further, Hin.
    + rewrite (render_grouper_raise H c rendered ss bad rest e Hfn Ecs Hss Ebad) in Hr.
      destruct (run_Raise_not_Return _ _ _ _ _ _ Hr).
  - pose proof Hr as Hr0. apply render_Return_inv in Hr0 as (ps & Ewalk & _).
    rewrite (walk_clause_registered c H _ Hfn) in Ewalk.
    apply build_compound_Return_inv in Ewalk as (use & avoid & Ec).
    destruct (render_cases use H) as [[k Ek]|[err Ek]].
    + destruct (render_cases avoid H) as [[e Ee]|[err Ee]].
      * rewrite (render_compound_ok H c use avoid k e Hfn Ec Ek Ee) in Hr.
        apply Run_Return_inj in Hr as <-.
        apply (render_compound_ok H' c use avoid k e Hfn' Ec).
        -- apply Hkids; [rewrite Ec; apply list_elem_of_here|exact Ek].
        -- apply Hkids; [rewrite Ec; apply list_elem_of_further, list_elem_of_here|exact Ee].
      * rewrite (render_compound_raise_avoid H c use avoid k err Hfn Ec Ek Ee) in Hr.
        destruct (run_Raise_not_Return _ _ _ _ _ _ Hr).
    + rewrite (render_compound_raise_use H c use avoid err Hfn Ec Ek) in Hr.
      destruct (run_Raise_not_Return _ _ _ _ _ _ Hr).
Qed.

Lemma render_stable_under_extension_witness :
  render (new_And [new_Term "text" "foo"; new_Term "text" "bar"])
         (<[Prefix := fn_build_field]> HANDLERS)
  = Run (<[Prefix := fn_build_field]> HANDLERS) []
        (Return "(and (field text 'foo') (field text 'bar'))").
Proof.
  apply (render_stable_under_extension HANDLERS).
  - intros cls fn Hcls. rewrite lookup_insert_ne; [exact Hcls|].
    intros <-. vm_compute in Hcls. discriminate Hcls.
  - vm_compute. reflexivity.
Defined.
